(** * DynamicSlider: windowing, navigation and offset animation

    A shallow embedding of the slider component of [src/plugins/flags.ts]
    (the React component [DynamicSlider] and its handlers) together with the
    properties of its visible-window computation, its index navigation, its
    drag handling, its peek-width computation and its frame-by-frame offset
    animation.

    Numbers.  Every numeric value of the component is a JavaScript [number].
    The model keeps the special values of IEEE 754 ([NaN] and the two
    infinities) and takes every finite value to be an exact real: rounding and
    overflow of the 64-bit format are outside the model, and zero carries no
    sign (a non-zero finite number divided by zero gives the infinity of the
    sign of the numerator). *)

From Stdlib Require Import Reals Lra Lia ZArith List Sorted String Ascii Bool.
Import ListNotations.

Local Open Scope R_scope.

(* ================================================================== *)
(** ** JavaScript numbers *)
(* ================================================================== *)

Module JS.

Inductive number : Type :=
| NaN
| PInf
| NInf
| Fin (r : R).

Definition of_Z (z : Z) : number := Fin (IZR z).
Definition of_nat (n : nat) : number := Fin (IZR (Z.of_nat n)).

(** Unary minus. *)
Definition neg (x : number) : number :=
  match x with
  | NaN => NaN
  | PInf => NInf
  | NInf => PInf
  | Fin r => Fin (- r)
  end.

Definition add (x y : number) : number :=
  match x, y with
  | NaN, _ | _, NaN => NaN
  | PInf, NInf | NInf, PInf => NaN
  | PInf, _ | _, PInf => PInf
  | NInf, _ | _, NInf => NInf
  | Fin a, Fin b => Fin (a + b)
  end.

Definition sub (x y : number) : number := add x (neg y).

(** The infinity whose sign is the sign of [a]; [NaN] for zero. *)
Definition inf_of_sign (a : R) : number :=
  if Rlt_dec 0 a then PInf else if Rlt_dec a 0 then NInf else NaN.

Definition mul (x y : number) : number :=
  match x, y with
  | NaN, _ | _, NaN => NaN
  | Fin a, Fin b => Fin (a * b)
  | Fin a, PInf | PInf, Fin a => inf_of_sign a
  | Fin a, NInf | NInf, Fin a => inf_of_sign (- a)
  | PInf, PInf | NInf, NInf => PInf
  | PInf, NInf | NInf, PInf => NInf
  end.

Definition div (x y : number) : number :=
  match x, y with
  | NaN, _ | _, NaN => NaN
  | Fin a, Fin b => if Req_dec_T b 0 then inf_of_sign a else Fin (a / b)
  | Fin _, PInf | Fin _, NInf => Fin 0
  | PInf, Fin b => if Rlt_dec b 0 then NInf else PInf
  | NInf, Fin b => if Rlt_dec b 0 then PInf else NInf
  | _, _ => NaN
  end.

(** [x < y]; every comparison with [NaN] is false. *)
Definition ltb (x y : number) : bool :=
  match x, y with
  | NaN, _ | _, NaN => false
  | _, NInf => false
  | PInf, _ => false
  | NInf, _ => true
  | _, PInf => true
  | Fin a, Fin b => if Rlt_dec a b then true else false
  end.

Definition gtb (x y : number) : bool := ltb y x.

(** [!x]: zero and [NaN] are the falsy numbers. *)
Definition falsy (x : number) : bool :=
  match x with
  | NaN => true
  | Fin r => if Req_dec_T r 0 then true else false
  | _ => false
  end.

(** [Math.max] and [Math.min] of two arguments. *)
Definition max (x y : number) : number :=
  match x, y with
  | NaN, _ | _, NaN => NaN
  | _, _ => if ltb x y then y else x
  end.

Definition min (x y : number) : number :=
  match x, y with
  | NaN, _ | _, NaN => NaN
  | _, _ => if ltb y x then y else x
  end.

Definition abs (x : number) : number :=
  match x with
  | NaN => NaN
  | PInf | NInf => PInf
  | Fin r => Fin (Rabs r)
  end.

(** [Math.floor] and [Math.ceil]: the largest integer below and the smallest
    integer above. *)
Definition floorR (r : R) : Z := Int_part r.
Definition ceilR (r : R) : Z := (- Int_part (- r))%Z.

Definition floor (x : number) : number :=
  match x with
  | Fin r => Fin (IZR (floorR r))
  | _ => x
  end.

Definition ceil (x : number) : number :=
  match x with
  | Fin r => Fin (IZR (ceilR r))
  | _ => x
  end.

(** [Math.exp]. *)
Definition exp (x : number) : number :=
  match x with
  | NaN => NaN
  | PInf => PInf
  | NInf => Fin 0
  | Fin r => Fin (Rtrigo_def.exp r)
  end.

(** [x <= y] as a proposition; it fails when either side is [NaN]. *)
Definition le (x y : number) : Prop :=
  match x, y with
  | Fin a, Fin b => a <= b
  | NInf, (NInf | Fin _ | PInf) => True
  | Fin _, PInf | PInf, PInf => True
  | _, _ => False
  end.

End JS.

Export JS(number, NaN, PInf, NInf, Fin).

Declare Scope js_scope.
Delimit Scope js_scope with js.
Bind Scope js_scope with number.
Notation "x + y" := (JS.add x y) : js_scope.
Notation "x - y" := (JS.sub x y) : js_scope.
Notation "x * y" := (JS.mul x y) : js_scope.
Notation "x / y" := (JS.div x y) : js_scope.
Notation "- x" := (JS.neg x) : js_scope.
Notation "x <? y" := (JS.ltb x y) : js_scope.
Notation "x >? y" := (JS.gtb x y) : js_scope.

(** Numeric literals of the source. *)
Definition num (z : Z) : number := JS.of_Z z.

(* ================================================================== *)
(** ** Strings: [endsWith] and [parseFloat] *)
(* ================================================================== *)

Module Str.

Local Open Scope string_scope.

(** [s.endsWith(suffix)] *)
Definition endsWith (s suffix : string) : bool :=
  let n := String.length s in
  let k := String.length suffix in
  (k <=? n)%nat && String.eqb (substring (n - k) k s) suffix.

(** White space skipped by [parseFloat] (the ASCII part of it). *)
Definition isWhiteSpace (c : ascii) : bool :=
  match nat_of_ascii c with
  | 9%nat | 10%nat | 11%nat | 12%nat | 13%nat | 32%nat => true
  | _ => false
  end.

Fixpoint trimStart (s : string) : string :=
  match s with
  | String c r => if isWhiteSpace c then trimStart r else s
  | EmptyString => s
  end.

Definition digitOf (c : ascii) : option Z :=
  let n := nat_of_ascii c in
  if (48 <=? n)%nat && (n <=? 57)%nat then Some (Z.of_nat (n - 48)) else None.

(** Reads the longest run of decimal digits at the head of [s], continuing
    the decimal value [acc]; returns the value, how many digits were read and
    the rest of the string. *)
Fixpoint digits (s : string) (acc : Z) (count : nat) : Z * nat * string :=
  match s with
  | String c r =>
      match digitOf c with
      | Some d => digits r (10 * acc + d)%Z (S count)
      | None => (acc, count, s)
      end
  | EmptyString => (acc, count, s)
  end.

(** An optional sign at the head of [s]. *)
Definition signOf (s : string) : Z * string :=
  match s with
  | String "+" r => (1%Z, r)
  | String "-" r => ((-1)%Z, r)
  | _ => (1%Z, s)
  end.

(** The exponent part (e, sign, digits) at the head of [s]; zero when there is none. *)
Definition exponentOf (s : string) : Z :=
  match s with
  | String c r =>
      if Ascii.eqb c "e" || Ascii.eqb c "E" then
        let '(sg, r1) := signOf r in
        let '(ev, ne, _) := digits r1 0%Z 0%nat in
        match ne with O => 0%Z | S _ => (sg * ev)%Z end
      else 0%Z
  | EmptyString => 0%Z
  end.

(** What [parseFloat] reads at the head of a string. *)
Inductive Literal : Type :=
| LitNone
| LitInfinity (positive : bool)
| LitDecimal (mantissa exponent : Z).

(** The longest prefix of the trimmed string that is a decimal literal: an
    optional sign, then [Infinity] or digits with an optional fraction and an
    optional exponent. *)
Definition scanFloat (s : string) : Literal :=
  let '(sg, s2) := signOf (trimStart s) in
  if prefix "Infinity" s2 then LitInfinity (0 <? sg)%Z
  else
    let '(ip, ni, s3) := digits s2 0%Z 0%nat in
    let '(mant, nf, s4) :=
      match s3 with
      | String "." r => digits r ip 0%nat
      | _ => (ip, 0%nat, s3)
      end in
    match (ni + nf)%nat with
    | O => LitNone
    | S _ => LitDecimal (sg * mant) (exponentOf s4 - Z.of_nat nf)
    end.

(** [parseFloat(s)]: the value of the literal at the head of [s], [NaN] when
    there is none. *)
Definition parseFloat (s : string) : number :=
  match scanFloat s with
  | LitNone => NaN
  | LitInfinity positive => if positive then PInf else NInf
  | LitDecimal m e => Fin (IZR m * powerRZ 10 e)
  end.

End Str.

(* ================================================================== *)
(** ** Configuration, properties and state of the component *)
(* ================================================================== *)

(** [Item]: only the identifier matters to the slider. *)
Inductive ItemId : Type :=
| IdString (s : string)
| IdNumber (n : number).

Record Item : Type := { id : ItemId }.

Record SpringConfig : Type := {
  stiffness : number;
  damping : number;
  mass : number
}.

Record Virtualization : Type := {
  enabled : bool;
  overscan : option number
}.

(** [peekAmount?: number | string] *)
Inductive PeekAmount : Type :=
| PeekNumber (n : number)
| PeekString (s : string)
| PeekUndefined.

(** The fields of [SliderConfig] read by the functions below (the arrow and
    breakpoint settings only feed the rendering and the resize observer). *)
Record SliderConfig : Type := {
  peek : bool;
  peekAmount : PeekAmount;
  gap : number;
  enableDrag : bool;
  dragThreshold : number;
  springConfig : SpringConfig;
  virtualization : option Virtualization
}.

Definition defaultConfig : SliderConfig := {|
  peek := false;
  peekAmount := PeekString "20%";
  gap := num 24;
  enableDrag := true;
  dragThreshold := Fin (2 / 10);
  springConfig := {| stiffness := num 150; damping := num 25; mass := num 1 |};
  virtualization := Some {| enabled := true; overscan := Some (num 2) |}
|}.

(** [SliderProps]: the optional callbacks are present ([true]) or absent. *)
Record SliderProps : Type := {
  items : list Item;
  config : SliderConfig;
  onSlideChange : bool;
  onDragStart : bool;
  onDragEnd : bool
}.

(** A call of one of the callbacks of the properties. *)
Inductive Callback : Type :=
| SlideChange (index : number)
| DragStarted
| DragEnded.

(** The closure of [animate] built by one call of [animateToOffset]. *)
Record Animation : Type := {
  targetOffset : number;
  startOffset : number;
  distance : number;
  startTime : R;
  spring : SpringConfig
}.

(** The state hooks and refs of one slider instance, followed by the part of
    the host the handlers act on: the callbacks registered with
    [requestAnimationFrame] that have neither run nor been cancelled (oldest
    first), the next handle the host hands out, and the calls made to the
    callbacks of the properties (oldest first). *)
Record Slider : Type := {
  containerWidth : number;
  currentIndex : number;
  isDragging : bool;
  visibleItems : number;
  sliderOffset : number;
  peekWidth : number;
  dragStartRef : number;
  dragCurrentRef : number;
  animationRef : nat;
  frames : list (nat * Animation);
  nextHandle : nat;
  calls : list Callback
}.

Record Range : Type := { start : number; end_ : number }.

(** State of a freshly mounted slider, before the first measurement. *)
Definition mount (defaultIndex small : number) : Slider := {|
  containerWidth := num 0;
  currentIndex := defaultIndex;
  isDragging := false;
  visibleItems := small;
  sliderOffset := num 0;
  peekWidth := num 0;
  dragStartRef := num 0;
  dragCurrentRef := num 0;
  animationRef := 0%nat;
  frames := [];
  nextHandle := 1%nat;
  calls := []
|}.

(* ================================================================== *)
(** ** The functions of the component *)
(* ================================================================== *)

Section Component.

Variable p : SliderProps.

Local Open Scope js_scope.

Local Abbreviation cfg := (config p).

(** [items.length] *)
Definition itemsLength : number := JS.of_nat (List.length (items p)).

(** [peek ? peekWidth : 0], the peek adjustment of every target offset. *)
Definition peekAdjustment (st : Slider) : number :=
  if peek cfg then peekWidth st else num 0.

(** [calculatePeekWidth(width)] *)
Definition calculatePeekWidth (st : Slider) (width : number) : number :=
  if negb (peek cfg) then num 0
  else
    match peekAmount cfg with
    | PeekNumber n => n
    | PeekString s =>
        if Str.endsWith s "%" then
          let itemWidth :=
            (width - (visibleItems st - num 1) * gap cfg) / visibleItems st in
          (itemWidth * Str.parseFloat s) / num 100
        else num 0
    | PeekUndefined => num 0
    end.

(** [getItemWidth()] *)
Definition getItemWidth (st : Slider) : number :=
  if JS.falsy (containerWidth st) then num 0
  else
    let peekSpace := if peek cfg then peekWidth st * num 2 else num 0 in
    let availableWidth := containerWidth st - peekSpace in
    (availableWidth - gap cfg * (visibleItems st - num 1)) / visibleItems st.

(** [virtualization.overscan ?? 2] *)
Definition overscanOf (v : Virtualization) : number :=
  match overscan v with Some o => o | None => num 2 end.

(** [calculateVisibleRange()]; the unused local [visibleItemCount] of the
    source is left out. *)
Definition calculateVisibleRange (st : Slider) : Range :=
  match virtualization cfg with
  | Some v =>
      if enabled v then
        let itemWidth := getItemWidth st in
        let overscan := overscanOf v in
        let startIndex :=
          JS.max (num 0)
                 (JS.floor (- sliderOffset st / (itemWidth + gap cfg)) - overscan) in
        let endIndex :=
          JS.min itemsLength
                 (JS.ceil ((- sliderOffset st + containerWidth st)
                           / (itemWidth + gap cfg)) + overscan) in
        {| start := startIndex; end_ := endIndex |}
      else {| start := num 0; end_ := itemsLength |}
  | None => {| start := num 0; end_ := itemsLength |}
  end.

(** *** State setters and the host *)

Definition setSliderOffset (o : number) (st : Slider) : Slider := {|
  containerWidth := containerWidth st; currentIndex := currentIndex st;
  isDragging := isDragging st; visibleItems := visibleItems st;
  sliderOffset := o; peekWidth := peekWidth st;
  dragStartRef := dragStartRef st; dragCurrentRef := dragCurrentRef st;
  animationRef := animationRef st; frames := frames st;
  nextHandle := nextHandle st; calls := calls st |}.

Definition setCurrentIndex (i : number) (st : Slider) : Slider := {|
  containerWidth := containerWidth st; currentIndex := i;
  isDragging := isDragging st; visibleItems := visibleItems st;
  sliderOffset := sliderOffset st; peekWidth := peekWidth st;
  dragStartRef := dragStartRef st; dragCurrentRef := dragCurrentRef st;
  animationRef := animationRef st; frames := frames st;
  nextHandle := nextHandle st; calls := calls st |}.

Definition setIsDragging (b : bool) (st : Slider) : Slider := {|
  containerWidth := containerWidth st; currentIndex := currentIndex st;
  isDragging := b; visibleItems := visibleItems st;
  sliderOffset := sliderOffset st; peekWidth := peekWidth st;
  dragStartRef := dragStartRef st; dragCurrentRef := dragCurrentRef st;
  animationRef := animationRef st; frames := frames st;
  nextHandle := nextHandle st; calls := calls st |}.

Definition setDragRefs (s c : number) (st : Slider) : Slider := {|
  containerWidth := containerWidth st; currentIndex := currentIndex st;
  isDragging := isDragging st; visibleItems := visibleItems st;
  sliderOffset := sliderOffset st; peekWidth := peekWidth st;
  dragStartRef := s; dragCurrentRef := c;
  animationRef := animationRef st; frames := frames st;
  nextHandle := nextHandle st; calls := calls st |}.

(** [animationRef.current = requestAnimationFrame(animate)]: the host hands
    out a fresh handle and queues the callback for the next frame. *)
Definition requestAnimationFrame (a : Animation) (st : Slider) : Slider := {|
  containerWidth := containerWidth st; currentIndex := currentIndex st;
  isDragging := isDragging st; visibleItems := visibleItems st;
  sliderOffset := sliderOffset st; peekWidth := peekWidth st;
  dragStartRef := dragStartRef st; dragCurrentRef := dragCurrentRef st;
  animationRef := nextHandle st;
  frames := frames st ++ [(nextHandle st, a)];
  nextHandle := S (nextHandle st); calls := calls st |}.

(** [cancelAnimationFrame(animationRef.current)]: the callback registered
    under that handle, if it is still queued, is removed. *)
Definition cancelAnimationFrame (st : Slider) : Slider := {|
  containerWidth := containerWidth st; currentIndex := currentIndex st;
  isDragging := isDragging st; visibleItems := visibleItems st;
  sliderOffset := sliderOffset st; peekWidth := peekWidth st;
  dragStartRef := dragStartRef st; dragCurrentRef := dragCurrentRef st;
  animationRef := animationRef st;
  frames := filter (fun f => negb (Nat.eqb (fst f) (animationRef st))) (frames st);
  nextHandle := nextHandle st; calls := calls st |}.

(** A call [cb?.(...)] of an optional callback of the properties. *)
Definition notify (present : bool) (c : Callback) (st : Slider) : Slider :=
  if present then {|
    containerWidth := containerWidth st; currentIndex := currentIndex st;
    isDragging := isDragging st; visibleItems := visibleItems st;
    sliderOffset := sliderOffset st; peekWidth := peekWidth st;
    dragStartRef := dragStartRef st; dragCurrentRef := dragCurrentRef st;
    animationRef := animationRef st; frames := frames st;
    nextHandle := nextHandle st; calls := calls st ++ [c] |}
  else st.

(** *** Animation *)

(** The eased progress of [animate] at a given [progress]. *)
Definition dampedProgress (sp : SpringConfig) (progress : number) : number :=
  let springProgress := num 1 - JS.exp ((- stiffness sp * progress) / mass sp) in
  springProgress * (num 1 - JS.exp (- damping sp * progress)).

(** [progress] of [animate] at the frame time [currentTime]. *)
Definition progressAt (a : Animation) (currentTime : R) : number :=
  let elapsed := Fin currentTime - Fin (startTime a) in
  JS.min (elapsed / num 300) (num 1).

(** The frame callback [animate(currentTime)] of the closure [a]. *)
Definition animate (a : Animation) (currentTime : R) (st : Slider) : Slider :=
  let progress := progressAt a currentTime in
  let newOffset := startOffset a + distance a * dampedProgress (spring a) progress in
  let st := setSliderOffset newOffset st in
  if progress <? num 1 then requestAnimationFrame a st else st.

(** [animateToOffset(targetOffset, immediate)], called when
    [performance.now()] is [now]. *)
Definition animateToOffset (target : number) (immediate : bool) (now : R)
    (st : Slider) : Slider :=
  if immediate then setSliderOffset target st
  else
    let a := {| targetOffset := target;
                startOffset := sliderOffset st;
                distance := target - sliderOffset st;
                startTime := now;
                spring := springConfig cfg |} in
    requestAnimationFrame a (cancelAnimationFrame st).

(** One display refresh at time [t]: the host runs the callbacks that were
    queued when the frame began; what they register waits for the next one. *)
Definition runFrame (t : R) (st : Slider) : Slider :=
  let queued := frames st in
  let st0 := {|
    containerWidth := containerWidth st; currentIndex := currentIndex st;
    isDragging := isDragging st; visibleItems := visibleItems st;
    sliderOffset := sliderOffset st; peekWidth := peekWidth st;
    dragStartRef := dragStartRef st; dragCurrentRef := dragCurrentRef st;
    animationRef := animationRef st; frames := [];
    nextHandle := nextHandle st; calls := calls st |} in
  fold_left (fun s f => animate (snd f) t s) queued st0.

Definition runFrames (ts : list R) (st : Slider) : Slider :=
  fold_left (fun s t => runFrame t s) ts st.

(** *** Navigation *)

(** The target offset of an index,
    [-(index * (itemWidth + gap)) + (peek ? peekWidth : 0)], which every
    handler below writes out with its own index. *)
Definition offsetOfIndex (st : Slider) (index : number) : number :=
  - (index * (getItemWidth st + gap cfg)) + peekAdjustment st.

Definition handleNext (now : R) (st : Slider) : Slider :=
  let maxIndex := itemsLength - visibleItems st in
  let nextIndex := JS.min maxIndex (currentIndex st + num 1) in
  let targetOffset := offsetOfIndex st nextIndex in
  notify (onSlideChange p) (SlideChange nextIndex)
    (animateToOffset targetOffset false now (setCurrentIndex nextIndex st)).

Definition handlePrevious (now : R) (st : Slider) : Slider :=
  let prevIndex := JS.max (num 0) (currentIndex st - num 1) in
  let targetOffset := offsetOfIndex st prevIndex in
  notify (onSlideChange p) (SlideChange prevIndex)
    (animateToOffset targetOffset false now (setCurrentIndex prevIndex st)).

(** *** Dragging *)

Definition handleDragStart (clientX : number) (st : Slider) : Slider :=
  if negb (enableDrag cfg) then st
  else
    notify (onDragStart p) DragStarted
      (cancelAnimationFrame (setDragRefs clientX clientX (setIsDragging true st))).

Definition handleDragMove (clientX : number) (st : Slider) : Slider :=
  if negb (isDragging st) || negb (enableDrag cfg) then st
  else
    let deltaX := clientX - dragCurrentRef st in
    let st1 := setDragRefs (dragStartRef st) clientX st in
    let itemWidth := getItemWidth st in
    let maxOffset := peekAdjustment st in
    let minOffset :=
      - ((itemsLength - visibleItems st) * (itemWidth + gap cfg)) + peekAdjustment st in
    setSliderOffset
      (JS.max minOffset (JS.min maxOffset (sliderOffset st1 + deltaX))) st1.

Definition handleDragEnd (now : R) (st : Slider) : Slider :=
  if negb (isDragging st) || negb (enableDrag cfg) then st
  else
    let st1 := setIsDragging false st in
    let totalDrag := dragCurrentRef st - dragStartRef st in
    let itemWidth := getItemWidth st in
    let st2 :=
      if JS.abs totalDrag >? itemWidth * dragThreshold cfg then
        if totalDrag >? num 0 then handlePrevious now st1 else handleNext now st1
      else
        animateToOffset (offsetOfIndex st (currentIndex st)) false now st1 in
    notify (onDragEnd p) DragEnded st2.

(** *** The imperative handle

    [scrollToItem] and [refresh] play no part in the properties below and are
    left out. *)

Definition scrollToIndex (index : number) (now : R) (st : Slider) : Slider :=
  let targetOffset := offsetOfIndex st index in
  notify (onSlideChange p) (SlideChange index)
    (animateToOffset targetOffset false now (setCurrentIndex index st)).

Definition next := handleNext.
Definition previous := handlePrevious.
Definition getCurrentIndex (st : Slider) : number := currentIndex st.

End Component.

(* ================================================================== *)
(** ** Example sliders *)
(* ================================================================== *)

(** Ten items, four of them visible, a gap of 8 pixels in a container 424
    pixels wide: every item is 100 pixels wide.  Peek is disabled, the spring
    is the default one and a drag commits beyond a quarter of an item. *)
Definition tenItems : list Item :=
  map (fun i => {| id := IdNumber (JS.of_nat i) |}) (seq 1 10).

Definition exampleConfig : SliderConfig := {|
  peek := false;
  peekAmount := PeekString "10%";
  gap := num 8;
  enableDrag := true;
  dragThreshold := Fin (1 / 4);
  springConfig := springConfig defaultConfig;
  virtualization := Some {| enabled := true; overscan := Some (num 2) |}
|}.

Definition exampleProps : SliderProps := {|
  items := tenItems;
  config := exampleConfig;
  onSlideChange := true;
  onDragStart := true;
  onDragEnd := true
|}.

(** The slider at rest at [index], showing [offset]. *)
Definition exampleState (index offset : number) : Slider := {|
  containerWidth := num 424;
  currentIndex := index;
  isDragging := false;
  visibleItems := num 4;
  sliderOffset := offset;
  peekWidth := num 0;
  dragStartRef := num 0;
  dragCurrentRef := num 0;
  animationRef := 0%nat;
  frames := [];
  nextHandle := 1%nat;
  calls := []
|}.

(** The example configuration with peek enabled and the given amount. *)
Definition peekProps (amount : PeekAmount) : SliderProps := {|
  items := tenItems;
  config := {|
    peek := true;
    peekAmount := amount;
    gap := num 8;
    enableDrag := true;
    dragThreshold := Fin (1 / 4);
    springConfig := springConfig defaultConfig;
    virtualization := Some {| enabled := true; overscan := Some (num 2) |}
  |};
  onSlideChange := true;
  onDragStart := true;
  onDragEnd := true
|}.

(** Two items on a slider that shows four. *)
Definition twoItemProps : SliderProps := {|
  items := [ {| id := IdNumber (num 1) |}; {| id := IdNumber (num 2) |} ];
  config := exampleConfig;
  onSlideChange := true;
  onDragStart := true;
  onDragEnd := true
|}.

(* ================================================================== *)
(** ** Vocabulary of the properties *)
(* ================================================================== *)

Section Vocabulary.

Variable p : SliderProps.

Local Open Scope js_scope.

(** The eased progress on reals:
    [(1 - e^(-stiffness*progress/mass)) * (1 - e^(-damping*progress))]. *)
Definition easeR (k d m pr : R) : R :=
  ((1 - Rtrigo_def.exp (- k * pr / m)) * (1 - Rtrigo_def.exp (- d * pr)))%R.

(** [min(elapsed / 300, 1)] on reals. *)
Definition progressR (now t : R) : R := Rmin ((t - now) / 300) 1.

(** The offset a frame at progress [pr] writes. *)
Definition offsetAt (s dist k d m pr : R) : R := (s + dist * easeR k d m pr)%R.

(** What no frame callback touches. *)
Definition untouched (st : Slider) :=
  (containerWidth st, currentIndex st, isDragging st, visibleItems st,
   peekWidth st, dragStartRef st, dragCurrentRef st, calls st).

(** The animation [a] is the one pending callback, and the ref holds its
    handle. *)
Definition animating (a : Animation) (st : Slider) : Prop :=
  frames st = [(animationRef st, a)].

(** At most one callback is pending, and it is the one the ref designates. *)
Definition single_animation (st : Slider) : Prop :=
  frames st = [] \/ exists a, animating a st.

(** An animation between finite offsets with a finite spring. *)
Definition finiteAnimation (a : Animation) (s dist k d m : R) : Prop :=
  startOffset a = Fin s /\ distance a = Fin dist /\
  spring a = {| stiffness := Fin k; damping := Fin d; mass := Fin m |} /\
  m <> 0%R.

(** The state of a slider on which [a] was started: [a] is still pending, or
    it ran to its last frame and the offset is the final one. *)
Definition tracks (a : Animation) (s dist k d m : R) (st : Slider) : Prop :=
  animating a st
  \/ (frames st = [] /\ sliderOffset st = Fin (offsetAt s dist k d m 1)).

(** The pending callbacks with the one of the ref removed. *)
Definition others (st : Slider) : list (nat * Animation) :=
  filter (fun f => negb (Nat.eqb (fst f) (animationRef st))) (frames st).

(** The offsets the pending animations aim at. *)
Definition pendingTargets (st : Slider) : list number :=
  map (fun f => targetOffset (snd f)) (frames st).

(** The measurements of the example slider. *)
Definition measured (st : Slider) : Prop :=
  containerWidth st = num 424 /\ visibleItems st = num 4 /\ peekWidth st = num 0.

(** The closure [animateToOffset] builds for a non-immediate call. *)
Definition animationTo (target : number) (now : R) (st : Slider) : Animation := {|
  targetOffset := target;
  startOffset := sliderOffset st;
  distance := target - sliderOffset st;
  startTime := now;
  spring := springConfig (config p)
|}.

(** The common tail of [handleNext], [handlePrevious] and [scrollToIndex]:
    store the index, animate to its offset, call [onSlideChange]. *)
Definition goTo (index : number) (now : R) (st : Slider) : Slider :=
  notify (onSlideChange p) (SlideChange index)
    (animateToOffset p (offsetOfIndex p st index) false now (setCurrentIndex index st)).

(** What can happen to a mounted slider: the operations of its handle, the
    drag gestures and the display refreshes. *)
Inductive Event : Type :=
| EvNext (now : R)
| EvPrevious (now : R)
| EvScrollToIndex (index : number) (now : R)
| EvDragStart (clientX : number)
| EvDragMove (clientX : number)
| EvDragEnd (now : R)
| EvFrame (t : R).

Definition dispatch (e : Event) (st : Slider) : Slider :=
  match e with
  | EvNext now => next p now st
  | EvPrevious now => previous p now st
  | EvScrollToIndex i now => scrollToIndex p i now st
  | EvDragStart x => handleDragStart p x st
  | EvDragMove x => handleDragMove p x st
  | EvDragEnd now => handleDragEnd p now st
  | EvFrame t => runFrame t st
  end.

Definition run (es : list Event) (st : Slider) : Slider :=
  fold_left (fun s e => dispatch e s) es st.

End Vocabulary.

(** *** The runs the properties are checked on *)

(** The example slider half way (frame at 150) through an animation from
    offset 0 to offset -108 started at time 0. *)
Definition inFlight : Slider :=
  runFrame 150
    (animateToOffset exampleProps (num (-108)) false 0 (exampleState (num 0) (num 0))).

Definition inFlightAnimation : Animation :=
  animationTo exampleProps (num (-108)) 0 (exampleState (num 0) (num 0)).

(** The example slider at rest at index 2, then dragged from x = 100 to
    x = 125: a drag of 25 pixels, exactly a quarter of the item width. *)
Definition draggedToThreshold : Slider :=
  handleDragMove exampleProps (num 125)
    (handleDragStart exampleProps (num 100) (exampleState (num 2) (num (-216)))).

(** The example slider at rest at index 2, then dragged from x = 100 to
    x = 160. *)
Definition draggedRight : Slider :=
  handleDragMove exampleProps (num 160)
    (handleDragStart exampleProps (num 100) (exampleState (num 2) (num (-216)))).

(* ================================================================== *)
(** ** The rest of the slider: breakpoints, lookup by id, arrows,
       measurement and card heights *)
(* ================================================================== *)

(** Further operations of the language used by the functions below. *)
Module Op.

(** [x >= y] *)
Definition geb (x y : number) : bool :=
  match x, y with
  | NaN, _ | _, NaN => false
  | _, _ => negb (JS.ltb x y)
  end.

(** [x === y] on numbers: [NaN] equals nothing. *)
Definition strictEq (x y : number) : bool :=
  match x, y with
  | Fin a, Fin b => if Req_dec_T a b then true else false
  | PInf, PInf | NInf, NInf => true
  | _, _ => false
  end.

(** [a ?? d] *)
Definition orElse {A : Type} (a : option A) (d : A) : A :=
  match a with Some x => x | None => d end.

(** [Array.prototype.sort(cmp)], as the stable insertion sort: an element
    goes behind those that do not sort after it, and a comparison that is not
    above zero ([NaN] included) keeps the order.  For a consistent comparator
    every stable sort returns this list. *)
Fixpoint insertSorted {A : Type} (cmp : A -> A -> number) (x : A) (l : list A)
    : list A :=
  match l with
  | [] => [x]
  | y :: r => if JS.gtb (cmp y x) (num 0) then x :: l else y :: insertSorted cmp x r
  end.

Definition sort {A : Type} (cmp : A -> A -> number) (l : list A) : list A :=
  fold_left (fun acc x => insertSorted cmp x acc) l [].

(** [Array.prototype.findIndex]; [None] stands for the result -1. *)
Fixpoint findIndex {A : Type} (f : A -> bool) (l : list A) : option nat :=
  match l with
  | [] => None
  | x :: r => if f x then Some 0%nat else option_map S (findIndex f r)
  end.

(** [Math.max(...values)]: minus infinity for no value, [NaN] as soon as one
    value is [NaN]. *)
Definition mathMax (values : list number) : number :=
  fold_left JS.max values NInf.

End Op.

Module Responsive.

(** [ResponsiveBreakpoint] *)
Record Breakpoint : Type := { width : number; items : number }.

End Responsive.

(** A field of [Breakpoints]: left out, given as [undefined], or a number. *)
Inductive Field : Type :=
| Absent
| Undefined
| Value (n : number).

Record Breakpoints : Type := {
  large : Field;
  medium : Field;
  small : Field
}.

(** What the spread [{ ...defaults, ...breakpoints }] leaves in one field:
    an absent field keeps the default, a given one replaces it, also when it
    is [undefined]. *)
Definition spread (default : number) (f : Field) : option number :=
  match f with
  | Absent => Some default
  | Undefined => None
  | Value n => Some n
  end.

(** A field of the optional [breakpoints] argument. *)
Definition fieldOf (proj : Breakpoints -> Field) (b : option Breakpoints) : Field :=
  match b with Some x => proj x | None => Absent end.

(** [getVisibleItemsEnhanced(width, breakpoints, responsiveBreakpoints)] *)
Definition getVisibleItemsEnhanced (width : number) (breakpoints : option Breakpoints)
    (responsiveBreakpoints : option (list Responsive.Breakpoint)) : number :=
  match responsiveBreakpoints with
  | Some ((_ :: _) as rbs) =>
      let sortedBreakpoints :=
        Op.sort (fun a b => (Responsive.width b - Responsive.width a)%js) rbs in
      match find (fun bp => Op.geb width (Responsive.width bp)) sortedBreakpoints with
      | Some matchingBreakpoint => Responsive.items matchingBreakpoint
      | None =>
          Op.orElse
            (option_map Responsive.items
               (nth_error sortedBreakpoints (List.length sortedBreakpoints - 1)))
            (num 1)
      end
  | _ =>
      let defaultLarge := if Op.geb width (num 1280) then num 4 else num 3 in
      let defaultMedium := if Op.geb width (num 768) then num 3 else num 2 in
      let defaultSmall := if Op.geb width (num 640) then num 2 else num 1 in
      let mergedLarge := spread defaultLarge (fieldOf large breakpoints) in
      let mergedMedium := spread defaultMedium (fieldOf medium breakpoints) in
      let mergedSmall := spread defaultSmall (fieldOf small breakpoints) in
      if Op.geb width (num 1280) then Op.orElse mergedLarge (num 4)
      else if Op.geb width (num 1024) then Op.orElse mergedLarge (num 3)
      else if Op.geb width (num 768) then Op.orElse mergedMedium (num 3)
      else if Op.geb width (num 640) then Op.orElse mergedSmall (num 2)
      else Op.orElse mergedSmall (num 1)
  end.

(** *** Vocabulary of the breakpoint properties *)

(** The number a field gives, or [d] when it gives none. *)
Definition valueOr (f : Field) (d : number) : number :=
  match f with Value n => n | _ => d end.

Definition finiteWidth (bp : Responsive.Breakpoint) : Prop :=
  exists r : R, Responsive.width bp = Fin r.

(** The comparator of the sort: [b.width - a.width]. *)
Definition byWidthDescending (a b : Responsive.Breakpoint) : number :=
  (Responsive.width b - Responsive.width a)%js.

(** [a] may stand before [b] in a list sorted by descending width. *)
Definition widerOrEqual (a b : Responsive.Breakpoint) : Prop :=
  JS.le (Responsive.width b) (Responsive.width a).

(** The two settings of [SliderConfig] that only the measurement reads. *)
Record LayoutSettings : Type := {
  breakpoints : option Breakpoints;
  responsiveBreakpoints : option (list Responsive.Breakpoint)
}.

(** [item.id === itemId] *)
Definition idEq (a b : ItemId) : bool :=
  match a, b with
  | IdString s, IdString t => String.eqb s t
  | IdNumber x, IdNumber y => Op.strictEq x y
  | _, _ => false
  end.

Section MoreComponent.

Variable p : SliderProps.

Local Open Scope js_scope.

(** [scrollToItem(itemId)] of the imperative handle. *)
Definition scrollToItem (itemId : ItemId) (now : R) (st : Slider) : Slider :=
  match Op.findIndex (fun item => idEq (id item) itemId) (items p) with
  | Some k =>
      let itemIndex := JS.of_nat k in
      let targetOffset := offsetOfIndex p st itemIndex in
      notify (onSlideChange p) (SlideChange itemIndex)
        (animateToOffset p targetOffset false now (setCurrentIndex itemIndex st))
  | None => st
  end.

(** The arrows are rendered when [showArrows && items.length > visibleItems]. *)
Definition arrowsRendered (showArrows : bool) (st : Slider) : bool :=
  showArrows && (itemsLength p >? visibleItems st).

(** [disabled] of the left arrow: [currentIndex === 0]. *)
Definition leftArrowDisabled (st : Slider) : bool :=
  Op.strictEq (currentIndex st) (num 0).

(** [disabled] of the right arrow:
    [currentIndex === items.length - visibleItems]. *)
Definition rightArrowDisabled (st : Slider) : bool :=
  Op.strictEq (currentIndex st) (itemsLength p - visibleItems st).

(** [setContainerWidth], [setVisibleItems] and [setPeekWidth] in a row. *)
Definition setMeasurements (cw v pw : number) (st : Slider) : Slider := {|
  containerWidth := cw; currentIndex := currentIndex st;
  isDragging := isDragging st; visibleItems := v;
  sliderOffset := sliderOffset st; peekWidth := pw;
  dragStartRef := dragStartRef st; dragCurrentRef := dragCurrentRef st;
  animationRef := animationRef st; frames := frames st;
  nextHandle := nextHandle st; calls := calls st |}.

(** [refresh()] of the imperative handle; [offsetWidth] is the width of the
    container element, [None] while there is no element.  The peek width is
    computed by the [calculatePeekWidth] of the current render, with the
    visible-item count of the state before the call. *)
Definition refresh (ls : LayoutSettings) (offsetWidth : option number)
    (st : Slider) : Slider :=
  match offsetWidth with
  | Some width =>
      let newVisibleItems :=
        getVisibleItemsEnhanced width (breakpoints ls) (responsiveBreakpoints ls) in
      setMeasurements width newVisibleItems (calculatePeekWidth p st width) st
  | None => st
  end.

(** [updateDimensions()] of the resize observer, past its throttle:
    [containerRef.current?.offsetWidth ?? 0] is the width. *)
Definition updateDimensions (ls : LayoutSettings) (offsetWidth : option number)
    (st : Slider) : Slider :=
  let width := Op.orElse offsetWidth (num 0) in
  let newVisibleItems :=
    getVisibleItemsEnhanced width (breakpoints ls) (responsiveBreakpoints ls) in
  setMeasurements width newVisibleItems (calculatePeekWidth p st width) st.

End MoreComponent.

(** *** Card heights *)

(** The [cardHeights] object, as its properties in some order, and
    [maxHeight]. *)
Record Heights : Type := {
  cardHeights : list (string * number);
  maxHeight : number
}.

Definition noHeights : Heights := {| cardHeights := []; maxHeight := num 0 |}.

(** [{ ...prev, [key]: height }]: the property is replaced where it is, or
    added. *)
Fixpoint setProperty (key : string) (height : number) (o : list (string * number))
    : list (string * number) :=
  match o with
  | [] => [(key, height)]
  | (k, h) :: r =>
      if String.eqb k key then (k, height) :: r
      else (k, h) :: setProperty key height r
  end.

(** [o[key]] *)
Fixpoint getProperty (key : string) (o : list (string * number)) : option number :=
  match o with
  | [] => None
  | (k, h) :: r => if String.eqb k key then Some h else getProperty key r
  end.

Section CardHeights.

(** The property key an id is turned into (a number id becomes its decimal
    string). *)
Variable propertyKey : ItemId -> string.

(** [handleCardHeightChange(id, height)] *)
Definition handleCardHeightChange (cardId : ItemId) (height : number)
    (hs : Heights) : Heights :=
  let newHeights := setProperty (propertyKey cardId) height (cardHeights hs) in
  {| cardHeights := newHeights;
     maxHeight := Op.mathMax (map snd newHeights) |}.

End CardHeights.

(** *** Vocabulary of the further properties *)

(** The index is a finite number within [0, items.length - visibleItems]. *)
Definition indexInRange (p : SliderProps) (st : Slider) : Prop :=
  exists c v : R,
    currentIndex st = Fin c /\ visibleItems st = Fin v /\
    (0 <= c <= IZR (Z.of_nat (List.length (items p))) - v)%R.

(** Every event but [scrollToIndex], which takes any index. *)
Definition navigationOnly (e : Event) : Prop :=
  match e with
  | EvScrollToIndex _ _ => False
  | _ => True
  end.

Definition finiteNumber (x : number) : Prop := exists r : R, x = Fin r.

(** The offset the frame callback of the closure [a] writes at the frame
    time [t]. *)
Definition frameOffset (a : Animation) (t : R) : number :=
  (startOffset a + distance a * dampedProgress (spring a) (progressAt a t))%js.

(** From [st] on only [a] animates the slider: [a] is the one pending
    callback, and through every sequence of frames no other closure is ever
    pending and the offset is the one of [st] or one a frame wrote for [a]. *)
Definition onlyAnimation (a : Animation) (st : Slider) : Prop :=
  animating a st /\
  forall ts : list R,
    (forall f, In f (frames (runFrames ts st)) -> snd f = a) /\
    (sliderOffset (runFrames ts st) = sliderOffset st \/
     exists t : R, In t ts /\ sliderOffset (runFrames ts st) = frameOffset a t).

(** Everything that acts on the state of a mounted slider: the events above,
    [scrollToItem], a measurement ([refresh()] and [updateDimensions()] store
    a container width, a visible-item count and a peek width) and the cleanup
    of the measuring effect, [cancelAnimationFrame(animationRef.current)]. *)
Inductive Action : Type :=
| OnEvent (e : Event)
| OnScrollToItem (itemId : ItemId) (now : R)
| OnMeasure (cw v pw : number)
| OnCleanup.

Definition perform (p : SliderProps) (a : Action) (st : Slider) : Slider :=
  match a with
  | OnEvent e => dispatch p e st
  | OnScrollToItem itemId now => scrollToItem p itemId now st
  | OnMeasure cw v pw => setMeasurements cw v pw st
  | OnCleanup => cancelAnimationFrame st
  end.

Definition performAll (p : SliderProps) (acts : list Action) (st : Slider) : Slider :=
  fold_left (fun s a => perform p a s) acts st.


(* ================================================================== *)
(** ** HorizontalCarousel: the window of slides

    The carousel component that the source keeps beside the slider.  Its
    indices and lengths are whole numbers far below 2^53; they are integers
    here. *)
(* ================================================================== *)

Module Carousel.

Local Open Scope Z_scope.

Record Product : Type := { title : string; imgUrl : string }.

Definition VIEWPORT_SIZE : Z := 4.
Definition BUFFER_SIZE : Z := 4.

(** [normalizeIndex(index, length)]; [%] is the remainder that takes the sign
    of the dividend. *)
Definition normalizeIndex (index length : Z) : Z :=
  if length =? 0 then 0 else Z.rem (index + length) length.

(** A [slice] argument relative to the length: counted from the end when
    negative, and brought within [0, len]. *)
Definition relativeIndex (len z : Z) : Z :=
  if z <? 0 then Z.max (len + z) 0 else Z.min z len.

(** [l.slice(start, end)] *)
Definition slice {A : Type} (l : list A) (start end_ : Z) : list A :=
  let len := Z.of_nat (List.length l) in
  let k := relativeIndex len start in
  let final := relativeIndex len end_ in
  firstn (Z.to_nat (final - k)) (skipn (Z.to_nat k) l).

(** [l.slice(start)] *)
Definition sliceFrom {A : Type} (l : list A) (start : Z) : list A :=
  slice l start (Z.of_nat (List.length l)).

(** What [emblaApi.selectedScrollSnap()] does: it throws or returns an
    index. *)
Inductive Snap : Type :=
| Throws
| Selected (index : Z).

(** [getVisibleSlides()]; [emblaApi] is [None] while there is no carousel
    API. *)
Definition getVisibleSlides (products : list Product) (emblaApi : option Snap)
    (isInitialized : bool) : list Product :=
  let clone := products in
  match emblaApi with
  | None => slice products 0 (VIEWPORT_SIZE + BUFFER_SIZE)
  | Some snap =>
      if negb isInitialized || (Z.of_nat (List.length clone) =? 0)
      then slice products 0 (VIEWPORT_SIZE + BUFFER_SIZE)
      else
        match snap with
        | Throws => slice clone 0 (VIEWPORT_SIZE + BUFFER_SIZE)
        | Selected selectedIndex =>
            let totalSlides := Z.of_nat (List.length products) in
            let startIndex := normalizeIndex (selectedIndex - BUFFER_SIZE) totalSlides in
            let endIndex :=
              normalizeIndex (selectedIndex + VIEWPORT_SIZE + BUFFER_SIZE) totalSlides in
            if endIndex <=? startIndex
            then sliceFrom clone startIndex ++ slice clone 0 endIndex
            else slice clone startIndex endIndex
        end
  end.

(** The slide at a position counted round the list. *)
Definition slideAt (products : list Product) (i : Z) : option Product :=
  nth_error products (Z.to_nat (i mod Z.of_nat (List.length products))).

End Carousel.

(* ================================================================== *)
(** ** Facts about numbers *)
(* ================================================================== *)

Section NumberFacts.

Local Open Scope js_scope.

Lemma floorR_spec (r : R) : (IZR (JS.floorR r) <= r < IZR (JS.floorR r) + 1)%R.
Proof.
  unfold JS.floorR. destruct (base_Int_part r) as [H1 H2]. lra.
Qed.

Lemma floorR_unique (r : R) (z : Z) :
  (IZR z <= r < IZR z + 1)%R -> JS.floorR r = z.
Proof.
  intros H. unfold JS.floorR. symmetry. apply Int_part_spec. lra.
Qed.

Lemma ceilR_spec (r : R) : (IZR (JS.ceilR r) - 1 < r <= IZR (JS.ceilR r))%R.
Proof.
  unfold JS.ceilR. rewrite opp_IZR.
  destruct (floorR_spec (- r)%R) as [H1 H2]. unfold JS.floorR in *. lra.
Qed.

Lemma ceilR_unique (r : R) (z : Z) :
  (IZR z - 1 < r <= IZR z)%R -> JS.ceilR r = z.
Proof.
  intros H. unfold JS.ceilR.
  assert (E : JS.floorR (- r)%R = (- z)%Z).
  { apply floorR_unique. rewrite opp_IZR. lra. }
  unfold JS.floorR in E. rewrite E. lia.
Qed.

(** Floor and ceiling are monotone, and the floor lies below the ceiling. *)
Lemma floorR_le_ceilR (a b : R) : (a <= b)%R -> (JS.floorR a <= JS.ceilR b)%Z.
Proof.
  intros H. destruct (floorR_spec a) as [Ha _]. destruct (ceilR_spec b) as [_ Hb].
  apply le_IZR. lra.
Qed.

Lemma floorR_upper (a : R) (z : Z) : (a <= IZR z)%R -> (JS.floorR a <= z)%Z.
Proof.
  intros H. destruct (floorR_spec a) as [Ha _]. apply le_IZR. lra.
Qed.

Lemma ceilR_lower (a : R) (z : Z) : (IZR z <= a)%R -> (z <= JS.ceilR a)%Z.
Proof.
  intros H. destruct (ceilR_spec a) as [_ Ha]. apply le_IZR. lra.
Qed.

Lemma max_Fin (a b : R) : JS.max (Fin a) (Fin b) = Fin (Rmax a b).
Proof.
  unfold JS.max, JS.ltb, Rmax.
  destruct (Rlt_dec a b), (Rle_dec a b); try reflexivity; try lra.
  f_equal. lra.
Qed.

Lemma min_Fin (a b : R) : JS.min (Fin a) (Fin b) = Fin (Rmin a b).
Proof.
  unfold JS.min, JS.ltb, Rmin.
  destruct (Rlt_dec b a), (Rle_dec a b); try reflexivity; lra.
Qed.

Lemma div_Fin (a b : R) : b <> 0%R -> Fin a / Fin b = Fin (a / b).
Proof.
  intros H. unfold JS.div. destruct (Req_dec_T b 0); [contradiction | reflexivity].
Qed.

Lemma ltb_Fin_true (a b : R) : (a < b)%R -> (Fin a <? Fin b) = true.
Proof. intros H. unfold JS.ltb. destruct (Rlt_dec a b); [reflexivity | lra]. Qed.

Lemma ltb_Fin_false (a b : R) : (b <= a)%R -> (Fin a <? Fin b) = false.
Proof. intros H. unfold JS.ltb. destruct (Rlt_dec a b); [lra | reflexivity]. Qed.

Lemma falsy_Fin_false (a : R) : a <> 0%R -> JS.falsy (Fin a) = false.
Proof. intros H. unfold JS.falsy. destruct (Req_dec_T a 0); [contradiction | reflexivity]. Qed.


End NumberFacts.

(** Rewrites the operations on finite numbers into operations on reals. *)
Ltac fin_simpl :=
  repeat first
    [ rewrite max_Fin | rewrite min_Fin
    | rewrite div_Fin by lra
    | rewrite ltb_Fin_true by lra | rewrite ltb_Fin_false by lra
    | rewrite falsy_Fin_false by lra
    | progress unfold num, JS.of_Z, JS.of_nat
    | progress cbn [JS.add JS.sub JS.mul JS.neg JS.floor JS.ceil JS.exp JS.abs] ].

(** Splits on the comparisons of reals that guard the goal and discards the
    branches that contradict the context. *)
Ltac case_R :=
  repeat match goal with
  | |- context [Rle_dec ?a ?b] => destruct (Rle_dec a b); try lra
  | |- context [Rlt_dec ?a ?b] => destruct (Rlt_dec a b); try lra
  | |- context [Req_dec_T ?a ?b] => destruct (Req_dec_T a b); try lra
  end.

(* ================================================================== *)
(** ** Item width *)
(* ================================================================== *)

Section ItemWidth.

Local Open Scope js_scope.

(** On a measured slider with finite settings and a visible-item count other
    than zero, the item width is the finite quotient of the source. *)
Lemma getItemWidth_Fin (p : SliderProps) (st : Slider) (cw v g pw : R) :
  containerWidth st = Fin cw -> cw <> 0%R ->
  visibleItems st = Fin v -> v <> 0%R ->
  gap (config p) = Fin g ->
  peekWidth st = Fin pw ->
  getItemWidth p st =
    Fin ((cw - (if peek (config p) then pw * 2 else 0) - g * (v - 1)) / v)%R.
Proof.
  intros Hcw Hcw0 Hv Hv0 Hg Hpw. unfold getItemWidth.
  rewrite Hcw, Hv, Hg, Hpw. rewrite falsy_Fin_false by assumption.
  destruct (peek (config p)); cbn [JS.add JS.sub JS.mul JS.neg JS.of_Z num];
    rewrite div_Fin by assumption; f_equal; lra.
Qed.

Lemma getItemWidth_example (i o : number) :
  getItemWidth exampleProps (exampleState i o) = Fin 100.
Proof.
  rewrite (getItemWidth_Fin exampleProps (exampleState i o) 424 4 8 0);
    try reflexivity; try lra.
  cbn [peek config exampleProps exampleConfig]. f_equal. lra.
Qed.

Lemma itemsLength_example : itemsLength exampleProps = Fin 10.
Proof. reflexivity. Qed.

End ItemWidth.

(* ================================================================== *)
(** ** The visible window *)
(* ================================================================== *)

Section VisibleRange.

Local Open Scope js_scope.

(** A slider scrolled to index 100 of its ten items (no bounds are checked by
    [scrollToIndex]): the window starts at 98 and ends at 10. *)
Lemma visible_range_far_left :
  calculateVisibleRange exampleProps (exampleState (num 100) (num (-10800)))
  = {| start := Fin 98; end_ := Fin 10 |}.
Proof.
  unfold calculateVisibleRange. cbn [virtualization config exampleProps exampleConfig enabled].
  rewrite getItemWidth_example.
  rewrite itemsLength_example.
  cbn [sliderOffset containerWidth exampleState gap exampleConfig overscanOf overscan].
  fin_simpl.
  rewrite (floorR_unique _ 100%Z) by lra.
  rewrite (ceilR_unique _ 104%Z) by lra.
  fin_simpl. unfold Rmax, Rmin. case_R. f_equal; f_equal; lra.
Qed.

(** A slider pushed to the right of its container (offset 1000): the window
    ends before it starts, at a negative index. *)
Lemma visible_range_far_right :
  calculateVisibleRange exampleProps (exampleState (num (-10)) (num 1000))
  = {| start := Fin 0; end_ := Fin (-3) |}.
Proof.
  unfold calculateVisibleRange. cbn [virtualization config exampleProps exampleConfig enabled].
  rewrite getItemWidth_example.
  rewrite itemsLength_example.
  cbn [sliderOffset containerWidth exampleState gap exampleConfig overscanOf overscan].
  fin_simpl.
  rewrite (floorR_unique _ (-10)%Z) by lra.
  rewrite (ceilR_unique _ (-5)%Z) by lra.
  fin_simpl. unfold Rmax, Rmin. case_R. f_equal; f_equal; lra.
Qed.

(** C1, as stated, fails: with the ten-item slider scrolled to index 100
    (offset -10800) the computed window is [98, 10), so neither
    [start <= end] nor [start <= items.length] holds. *)
Lemma visible_range_not_ordered :
  let r := calculateVisibleRange exampleProps (exampleState (num 100) (num (-10800))) in
  ~ (JS.le (num 0) (start r) /\ JS.le (start r) (end_ r)
     /\ JS.le (end_ r) (itemsLength exampleProps)).
Proof.
  rewrite visible_range_far_left. cbn [start end_ JS.le].
  intros (_ & H & _). lra.
Qed.

(** C1, amended: with virtualization enabled, finite inputs and a positive
    item pitch [itemWidth + gap], the computed window always satisfies
    [0 <= start] and [end <= items.length]; it satisfies [start <= end] as
    well whenever the overscan and the container width are not negative and
    the strip of items overlaps the container, that is
    [-(items.length * (itemWidth + gap)) <= offset <= containerWidth]. *)
Theorem visible_range_bounds (p : SliderProps) (st : Slider)
    (v : Virtualization) (o w g x cw : R) :
  virtualization (config p) = Some v -> enabled v = true ->
  overscanOf v = Fin o ->
  getItemWidth p st = Fin w -> gap (config p) = Fin g ->
  sliderOffset st = Fin x -> containerWidth st = Fin cw ->
  (0 < w + g)%R ->
  let len := IZR (Z.of_nat (List.length (items p))) in
  exists s e : R,
    calculateVisibleRange p st = {| start := Fin s; end_ := Fin e |} /\
    (0 <= s)%R /\ (e <= len)%R /\
    ((0 <= o)%R -> (0 <= cw)%R -> (- (len * (w + g)) <= x <= cw)%R -> (s <= e)%R).
Proof.
  intros Hv Hen Ho Hw Hg Hx Hcw Hpos. cbv zeta.
  unfold calculateVisibleRange. rewrite Hv, Hen, Ho, Hw, Hg, Hx, Hcw.
  unfold itemsLength. fin_simpl.
  set (len := IZR (Z.of_nat (List.length (items p)))).
  do 2 eexists. split; [reflexivity |].
  split; [apply Rmax_l |]. split; [apply Rmin_l |].
  intros Ho0 Hcw0 [Hlo Hhi].
  assert (Hlen : (0 <= len)%R) by (apply IZR_le; lia).
  set (a := (- x / (w + g))%R).
  set (b := ((- x + cw) / (w + g))%R).
  assert (Ha : (a * (w + g) = - x)%R) by (unfold a; field; lra).
  assert (Hb : (b * (w + g) = - x + cw)%R) by (unfold b; field; lra).
  clearbody a b len.
  assert (Hab : (a <= b)%R)
    by (apply (Rmult_le_reg_r (w + g)); [lra | rewrite Ha, Hb; lra]).
  assert (Hal : (a <= len)%R)
    by (apply (Rmult_le_reg_r (w + g)); [lra | rewrite Ha; nra]).
  assert (Hb0 : (0 <= b)%R)
    by (apply (Rmult_le_reg_r (w + g)); [lra | rewrite Hb; lra]).
  destruct (floorR_spec a) as [Hfa _]. destruct (ceilR_spec b) as [_ Hcb].
  apply Rmax_lub; apply Rmin_glb; lra.
Qed.

(** The amended C1 at the ten-item slider resting at index 1. *)
Lemma visible_range_bounds_witness :
  exists s e : R,
    calculateVisibleRange exampleProps (exampleState (num 1) (num (-108)))
      = {| start := Fin s; end_ := Fin e |} /\
    (0 <= s)%R /\ (e <= 10)%R /\
    ((0 <= 2)%R -> (0 <= 424)%R -> (- (10 * (100 + 8)) <= -108 <= 424)%R -> (s <= e)%R).
Proof.
  apply (visible_range_bounds exampleProps (exampleState (num 1) (num (-108)))
           {| enabled := true; overscan := Some (num 2) |} 2 100 8 (-108) 424);
    try reflexivity.
  - apply getItemWidth_example.
  - lra.
Defined.

End VisibleRange.

(* ================================================================== *)
(** ** Peek width *)
(* ================================================================== *)

Section PeekWidth.

Local Open Scope js_scope.

Example parseFloat_abc_percent : Str.parseFloat "abc%" = NaN.
Proof. reflexivity. Qed.

Example parseFloat_abc : Str.parseFloat "abc" = NaN.
Proof. reflexivity. Qed.


Example parseFloat_decimal : Str.parseFloat " -2.5e1px" = Fin (-25).
Proof.
  unfold Str.parseFloat.
  change (Str.scanFloat " -2.5e1px") with (Str.LitDecimal (-25) 0).
  cbn [powerRZ]. f_equal. lra.
Qed.

Example parseFloat_leading_digits : Str.parseFloat "12abc%" = Fin 12.
Proof.
  unfold Str.parseFloat.
  change (Str.scanFloat "12abc%") with (Str.LitDecimal 12 0).
  cbn [powerRZ]. f_equal. lra.
Qed.

Lemma mul_NaN_r (x : number) : x * NaN = NaN.
Proof. destruct x; reflexivity. Qed.

Lemma div_NaN_l (x : number) : NaN / x = NaN.
Proof. destruct x; reflexivity. Qed.

(** With peek disabled the peek width is zero. *)
Lemma calculatePeekWidth_disabled (p : SliderProps) (st : Slider) (width : number) :
  peek (config p) = false -> calculatePeekWidth p st width = num 0.
Proof. intros H. unfold calculatePeekWidth. rewrite H. reflexivity. Qed.

(** A string amount that does not end in a percent sign gives zero. *)
Lemma calculatePeekWidth_not_percent (p : SliderProps) (st : Slider)
    (width : number) (s : string) :
  peekAmount (config p) = PeekString s -> Str.endsWith s "%" = false ->
  calculatePeekWidth p st width = num 0.
Proof.
  intros Hs He. unfold calculatePeekWidth. rewrite Hs, He.
  destruct (peek (config p)); reflexivity.
Qed.

(** A string amount that ends in a percent sign but has no number in front
    of it gives [NaN], whatever the width and the number of visible items. *)
Lemma calculatePeekWidth_percent_NaN (p : SliderProps) (st : Slider)
    (width : number) (s : string) :
  peek (config p) = true ->
  peekAmount (config p) = PeekString s -> Str.endsWith s "%" = true ->
  Str.parseFloat s = NaN ->
  calculatePeekWidth p st width = NaN.
Proof.
  intros Hp Hs He Hn. unfold calculatePeekWidth. rewrite Hp, Hs, He, Hn.
  cbn [negb]. rewrite mul_NaN_r. apply div_NaN_l.
Qed.

(** C6 at its failing input: with peek enabled and the amount ["abc%"] the
    peek width is [NaN] for every slider state and every container width,
    where the specification promises zero. *)
Theorem calculatePeekWidth_abc_percent (st : Slider) (width : number) :
  calculatePeekWidth (peekProps (PeekString "abc%")) st width = NaN
  /\ calculatePeekWidth (peekProps (PeekString "abc%")) st width <> num 0.
Proof.
  assert (E : calculatePeekWidth (peekProps (PeekString "abc%")) st width = NaN)
    by (apply (calculatePeekWidth_percent_NaN _ st width "abc%"); reflexivity).
  split; [exact E | rewrite E; discriminate].
Qed.

(** A malformed amount without the percent sign, ["abc"], does give zero. *)
Example calculatePeekWidth_abc (st : Slider) (width : number) :
  calculatePeekWidth (peekProps (PeekString "abc")) st width = num 0.
Proof. apply (calculatePeekWidth_not_percent _ st width "abc"); reflexivity. Qed.

(** The [NaN] spreads: once stored as the peek width it makes the item width
    [NaN] as well. *)
Example getItemWidth_NaN_peek :
  getItemWidth (peekProps (PeekString "abc%"))
    {| containerWidth := num 424; currentIndex := num 0; isDragging := false;
       visibleItems := num 4; sliderOffset := num 0; peekWidth := NaN;
       dragStartRef := num 0; dragCurrentRef := num 0; animationRef := 0%nat;
       frames := []; nextHandle := 1%nat; calls := [] |} = NaN.
Proof.
  unfold getItemWidth. cbn [containerWidth]. unfold num, JS.of_Z.
  rewrite falsy_Fin_false by lra. reflexivity.
Qed.

End PeekWidth.

(* ================================================================== *)
(** ** The easing curve *)
(* ================================================================== *)

Section Easing.

Local Open Scope js_scope.

Lemma dampedProgress_Fin (k d m pr : R) :
  m <> 0%R ->
  dampedProgress {| stiffness := Fin k; damping := Fin d; mass := Fin m |} (Fin pr)
  = Fin (easeR k d m pr).
Proof.
  intros Hm. unfold dampedProgress. cbn [stiffness damping mass].
  fin_simpl. reflexivity.
Qed.

Lemma progressAt_Fin (a : Animation) (t : R) :
  progressAt a t = Fin (progressR (startTime a) t).
Proof.
  unfold progressAt, progressR. fin_simpl. reflexivity.
Qed.

Lemma progressR_le_1 (now t : R) : (progressR now t <= 1)%R.
Proof. apply Rmin_r. Qed.

Lemma progressR_done (now t : R) : (now + 300 <= t)%R -> progressR now t = 1%R.
Proof.
  intros H. unfold progressR, Rmin.
  destruct (Rle_dec ((t - now) / 300) 1); lra.
Qed.

Lemma progressR_nonneg (now t : R) : (now <= t)%R -> (0 <= progressR now t)%R.
Proof.
  intros H. unfold progressR. apply Rmin_glb; lra.
Qed.

Lemma exp_le_1 (y : R) : (y <= 0)%R -> (Rtrigo_def.exp y <= 1)%R.
Proof.
  intros [H | H].
  - rewrite <- exp_0. left. apply exp_increasing. exact H.
  - subst y. rewrite exp_0. lra.
Qed.

Lemma exp_lt_1 (y : R) : (y < 0)%R -> (Rtrigo_def.exp y < 1)%R.
Proof. intros H. rewrite <- exp_0. apply exp_increasing. exact H. Qed.

(** For a positive spring and a progress within [0, 1] the eased progress
    stays within [0, 1): the curve never reaches its end. *)
Lemma easeR_bounds (k d m pr : R) :
  (0 < k)%R -> (0 < d)%R -> (0 < m)%R -> (0 <= pr <= 1)%R ->
  (0 <= easeR k d m pr < 1)%R.
Proof.
  intros Hk Hd Hm [Hp0 Hp1]. unfold easeR.
  assert (Hq : (- k * pr / m <= 0)%R).
  { apply (Rmult_le_reg_r m); [lra |].
    replace (- k * pr / m * m)%R with (- (k * pr))%R by (field; lra). nra. }
  assert (Hr : (- d * pr <= 0)%R) by nra.
  pose proof (exp_pos (- k * pr / m)) as E1.
  pose proof (exp_pos (- d * pr)) as E2.
  pose proof (exp_le_1 _ Hq) as F1.
  pose proof (exp_le_1 _ Hr) as F2.
  set (e1 := Rtrigo_def.exp (- k * pr / m)) in *.
  set (e2 := Rtrigo_def.exp (- d * pr)) in *.
  clearbody e1 e2. split; nra.
Qed.

(** A point [s + (tg - s) * q] with [q] in [0, 1] lies between [s] and [tg]. *)
Lemma between_endpoints (s tg q : R) :
  (0 <= q <= 1)%R ->
  (Rmin s tg <= s + (tg - s) * q <= Rmax s tg)%R.
Proof.
  intros [H0 H1]. unfold Rmin, Rmax. destruct (Rle_dec s tg); split; nra.
Qed.

End Easing.

(* ================================================================== *)
(** ** Frames of one animation *)
(* ================================================================== *)

(** Unfolds the setters and the host operations and reduces the projections
    of the records they build. *)
Ltac slider_simpl :=
  unfold notify, requestAnimationFrame, cancelAnimationFrame,
    setSliderOffset, setCurrentIndex, setIsDragging, setDragRefs in *;
  cbn [containerWidth currentIndex isDragging visibleItems sliderOffset peekWidth
       dragStartRef dragCurrentRef animationRef frames nextHandle calls
       fst snd negb] in *.

Section Frames.

Local Open Scope js_scope.

Lemma animate_untouched (a : Animation) (t : R) (st : Slider) :
  untouched (animate a t st) = untouched st.
Proof.
  unfold animate, untouched.
  destruct (progressAt a t <? num 1); reflexivity.
Qed.

Lemma fold_animate_untouched (t : R) (q : list (nat * Animation)) (st : Slider) :
  untouched (fold_left (fun s f => animate (snd f) t s) q st) = untouched st.
Proof.
  revert st. induction q as [| f q IH]; intros st; cbn [fold_left].
  - reflexivity.
  - rewrite IH. apply animate_untouched.
Qed.

Lemma runFrame_untouched (t : R) (st : Slider) :
  untouched (runFrame t st) = untouched st.
Proof. unfold runFrame. rewrite fold_animate_untouched. reflexivity. Qed.

Lemma runFrames_untouched (ts : list R) (st : Slider) :
  untouched (runFrames ts st) = untouched st.
Proof.
  unfold runFrames. revert st. induction ts as [| t ts IH]; intros st; cbn [fold_left].
  - reflexivity.
  - rewrite IH. apply runFrame_untouched.
Qed.

Lemma runFrames_currentIndex (ts : list R) (st : Slider) :
  currentIndex (runFrames ts st) = currentIndex st.
Proof.
  pose proof (runFrames_untouched ts st) as H. unfold untouched in H. congruence.
Qed.

Lemma runFrames_app (ts us : list R) (st : Slider) :
  runFrames (ts ++ us) st = runFrames us (runFrames ts st).
Proof. unfold runFrames. apply fold_left_app. Qed.

Lemma animate_running (a : Animation) (s dist k d m t : R) (st : Slider) :
  finiteAnimation a s dist k d m ->
  (progressR (startTime a) t < 1)%R ->
  sliderOffset (animate a t st) = Fin (offsetAt s dist k d m (progressR (startTime a) t))
  /\ frames (animate a t st) = frames st ++ [(nextHandle st, a)]
  /\ animationRef (animate a t st) = nextHandle st.
Proof.
  intros (Hs & Hd & Hsp & Hm) Hp. unfold animate.
  rewrite progressAt_Fin, Hs, Hd, Hsp, dampedProgress_Fin by assumption.
  unfold num, JS.of_Z. rewrite ltb_Fin_true by assumption.
  slider_simpl. cbn [JS.add JS.mul]. repeat split.
Qed.

Lemma animate_done (a : Animation) (s dist k d m t : R) (st : Slider) :
  finiteAnimation a s dist k d m ->
  progressR (startTime a) t = 1%R ->
  sliderOffset (animate a t st) = Fin (offsetAt s dist k d m 1)
  /\ frames (animate a t st) = frames st
  /\ animationRef (animate a t st) = animationRef st.
Proof.
  intros (Hs & Hd & Hsp & Hm) Hp. unfold animate.
  rewrite progressAt_Fin, Hs, Hd, Hsp, dampedProgress_Fin, Hp by assumption.
  unfold num, JS.of_Z. rewrite ltb_Fin_false by lra.
  slider_simpl. cbn [JS.add JS.mul]. repeat split.
Qed.

(** A frame with nothing pending changes nothing. *)
Lemma runFrame_idle (t : R) (st : Slider) :
  frames st = [] -> runFrame t st = st.
Proof.
  intros H. unfold runFrame. rewrite H. destruct st. cbn in *. subst. reflexivity.
Qed.

(** A frame while [a] is the pending animation: either it is not over, the
    offset is the eased one and [a] is pending again under a new handle, or it
    is over, the offset is the final one and nothing is pending. *)
Lemma runFrame_animating (a : Animation) (s dist k d m t : R) (st : Slider) :
  finiteAnimation a s dist k d m ->
  animating a st ->
  ((progressR (startTime a) t < 1)%R /\
   sliderOffset (runFrame t st)
     = Fin (offsetAt s dist k d m (progressR (startTime a) t)) /\
   animating a (runFrame t st))
  \/
  (progressR (startTime a) t = 1%R /\
   sliderOffset (runFrame t st) = Fin (offsetAt s dist k d m 1) /\
   frames (runFrame t st) = []).
Proof.
  intros Hfin Han. unfold animating in Han. unfold runFrame. rewrite Han.
  cbn [fold_left snd].
  destruct (Rlt_dec (progressR (startTime a) t) 1) as [Hlt | Hge].
  - left. split; [exact Hlt |].
    match goal with |- context [animate a t ?st0] =>
      destruct (animate_running a s dist k d m t st0 Hfin Hlt) as (Ho & Hf & Hr)
    end.
    split; [exact Ho |]. unfold animating. rewrite Hf, Hr. reflexivity.
  - right. assert (H1 : progressR (startTime a) t = 1%R)
      by (pose proof (progressR_le_1 (startTime a) t); lra).
    split; [exact H1 |].
    match goal with |- context [animate a t ?st0] =>
      destruct (animate_done a s dist k d m t st0 Hfin H1) as (Ho & Hf & _)
    end.
    split; [exact Ho | rewrite Hf; reflexivity].
Qed.

Lemma runFrame_tracks (a : Animation) (s dist k d m t : R) (st : Slider) :
  finiteAnimation a s dist k d m ->
  tracks a s dist k d m st -> tracks a s dist k d m (runFrame t st).
Proof.
  intros Hfin [Han | [Hf Ho]].
  - destruct (runFrame_animating a s dist k d m t st Hfin Han)
      as [(_ & _ & H) | (_ & H1 & H2)].
    + left. exact H.
    + right. split; assumption.
  - right. rewrite runFrame_idle by assumption. split; assumption.
Qed.

Lemma runFrames_tracks (a : Animation) (s dist k d m : R) (ts : list R) (st : Slider) :
  finiteAnimation a s dist k d m ->
  tracks a s dist k d m st -> tracks a s dist k d m (runFrames ts st).
Proof.
  intros Hfin. revert st. unfold runFrames.
  induction ts as [| t ts IH]; intros st H; cbn [fold_left].
  - exact H.
  - apply IH. apply runFrame_tracks; assumption.
Qed.

(** A frame at or after the end of the 300 time units settles the slider. *)
Lemma runFrame_settles (a : Animation) (s dist k d m t : R) (st : Slider) :
  finiteAnimation a s dist k d m ->
  tracks a s dist k d m st ->
  (startTime a + 300 <= t)%R ->
  frames (runFrame t st) = [] /\
  sliderOffset (runFrame t st) = Fin (offsetAt s dist k d m 1).
Proof.
  intros Hfin [Han | [Hf Ho]] Ht.
  - pose proof (progressR_done _ _ Ht) as H1.
    destruct (runFrame_animating a s dist k d m t st Hfin Han)
      as [(Hlt & _) | (_ & Ho & Hf)]; [lra | split; assumption].
  - rewrite runFrame_idle by assumption. split; assumption.
Qed.

(** Every frame not before the start writes, or leaves, an offset
    [s + dist * q] with an eased progress [q] of a progress within [0, 1]. *)
Lemma runFrame_eased (a : Animation) (s dist k d m t : R) (st : Slider) :
  finiteAnimation a s dist k d m ->
  tracks a s dist k d m st ->
  (startTime a <= t)%R ->
  exists pr : R, (0 <= pr <= 1)%R /\
    sliderOffset (runFrame t st) = Fin (offsetAt s dist k d m pr).
Proof.
  intros Hfin [Han | [Hf Ho]] Ht.
  - pose proof (progressR_nonneg _ _ Ht) as H0.
    pose proof (progressR_le_1 (startTime a) t) as H1.
    destruct (runFrame_animating a s dist k d m t st Hfin Han)
      as [(_ & Ho & _) | (_ & Ho & _)].
    + exists (progressR (startTime a) t). split; [lra | exact Ho].
    + exists 1%R. split; [lra | exact Ho].
  - exists 1%R. rewrite runFrame_idle by assumption. split; [lra | exact Ho].
Qed.

(** A frame while [a] is the pending animation writes the offset of [a];
    afterwards [a] is pending again or nothing is. *)
Lemma runFrame_closure (a : Animation) (t : R) (st : Slider) :
  animating a st ->
  sliderOffset (runFrame t st) = frameOffset a t /\
  (animating a (runFrame t st) \/ frames (runFrame t st) = []).
Proof.
  intros H. unfold animating in H. unfold runFrame. rewrite H.
  cbn [fold_left snd]. unfold animate, frameOffset, animating.
  destruct (progressAt a t <? num 1).
  - split; [reflexivity | left; reflexivity].
  - split; [reflexivity | right; reflexivity].
Qed.

Lemma runFrames_closure (a : Animation) (ts : list R) (st : Slider) :
  animating a st \/ frames st = [] ->
  (animating a (runFrames ts st) \/ frames (runFrames ts st) = []) /\
  (sliderOffset (runFrames ts st) = sliderOffset st \/
   exists t : R, In t ts /\ sliderOffset (runFrames ts st) = frameOffset a t).
Proof.
  revert st. induction ts as [| t ts IH]; intros st H.
  - split; [exact H | left; reflexivity].
  - change (runFrames (t :: ts) st) with (runFrames ts (runFrame t st)).
    destruct H as [H | H].
    + destruct (runFrame_closure a t st H) as [Ho Hf].
      destruct (IH _ Hf) as [Hf' [Ho' | (u & Hu & Ho')]].
      * split; [exact Hf' |]. right. exists t.
        split; [left; reflexivity | rewrite Ho'; exact Ho].
      * split; [exact Hf' |]. right. exists u.
        split; [right; exact Hu | exact Ho'].
    + rewrite (runFrame_idle t st H).
      destruct (IH st (or_intror H)) as [Hf' [Ho' | (u & Hu & Ho')]].
      * split; [exact Hf' | left; exact Ho'].
      * split; [exact Hf' |]. right. exists u.
        split; [right; exact Hu | exact Ho'].
Qed.

(** Once [a] is the one pending callback, no other closure ever runs. *)
Lemma animating_only (a : Animation) (st : Slider) :
  animating a st -> onlyAnimation a st.
Proof.
  intros H. split; [exact H |]. intros ts.
  destruct (runFrames_closure a ts st (or_introl H)) as [Hf Ho].
  split; [| exact Ho].
  intros f Hin. destruct Hf as [Hf | Hf].
  - unfold animating in Hf. rewrite Hf in Hin.
    destruct Hin as [<- | []]. reflexivity.
  - rewrite Hf in Hin. destruct Hin.
Qed.

End Frames.

(* ================================================================== *)
(** ** Starting and cancelling animations *)
(* ================================================================== *)

Section Scheduling.

Variable p : SliderProps.

Local Open Scope js_scope.

Lemma cancel_single (st : Slider) :
  single_animation st -> frames (cancelAnimationFrame st) = [].
Proof.
  intros [H | [a H]]; unfold animating in *; slider_simpl; rewrite H.
  - reflexivity.
  - cbn [filter fst]. rewrite Nat.eqb_refl. reflexivity.
Qed.

(** A non-immediate call removes the pending animation and leaves the new one
    as the only pending callback. *)
Lemma animateToOffset_supersedes (target : number) (now : R) (st : Slider) :
  single_animation st ->
  animating (animationTo p target now st) (animateToOffset p target false now st).
Proof.
  intros H. unfold animateToOffset, animating.
  pose proof (cancel_single st H) as Hc.
  unfold requestAnimationFrame at 1 2.
  cbn [frames animationRef]. rewrite Hc. reflexivity.
Qed.

(** An immediate call writes the offset and nothing else: what was pending
    stays pending. *)
Lemma animateToOffset_immediate (target : number) (now : R) (st : Slider) :
  animateToOffset p target true now st = setSliderOffset target st.
Proof. reflexivity. Qed.

Lemma animate_single (a : Animation) (t : R) (st : Slider) :
  frames st = [] -> single_animation (animate a t st).
Proof.
  intros H. unfold animate.
  destruct (progressAt a t <? num 1).
  - right. exists a. unfold animating. slider_simpl. rewrite H. reflexivity.
  - left. slider_simpl. exact H.
Qed.

Lemma runFrame_single (t : R) (st : Slider) :
  single_animation st -> single_animation (runFrame t st).
Proof.
  intros [H | [a H]].
  - rewrite runFrame_idle by assumption. left. exact H.
  - unfold animating in H. unfold runFrame. rewrite H. cbn [fold_left snd].
    apply animate_single. reflexivity.
Qed.

Lemma notify_single (b : bool) (c : Callback) (st : Slider) :
  single_animation st -> single_animation (notify b c st).
Proof. intros H. unfold notify. destruct b; exact H. Qed.

Lemma animateToOffset_single (target : number) (immediate : bool) (now : R)
    (st : Slider) :
  single_animation st -> single_animation (animateToOffset p target immediate now st).
Proof.
  intros H. destruct immediate.
  - exact H.
  - right. eexists. apply animateToOffset_supersedes. exact H.
Qed.

Lemma handleNext_single (now : R) (st : Slider) :
  single_animation st -> single_animation (handleNext p now st).
Proof.
  intros H. unfold handleNext. apply notify_single, animateToOffset_single. exact H.
Qed.

Lemma handlePrevious_single (now : R) (st : Slider) :
  single_animation st -> single_animation (handlePrevious p now st).
Proof.
  intros H. unfold handlePrevious. apply notify_single, animateToOffset_single. exact H.
Qed.

Lemma scrollToIndex_single (i : number) (now : R) (st : Slider) :
  single_animation st -> single_animation (scrollToIndex p i now st).
Proof.
  intros H. unfold scrollToIndex. apply notify_single, animateToOffset_single. exact H.
Qed.

Lemma handleDragStart_single (x : number) (st : Slider) :
  single_animation st -> single_animation (handleDragStart p x st).
Proof.
  intros H. unfold handleDragStart. destruct (negb (enableDrag (config p))).
  - exact H.
  - apply notify_single. left.
    apply (cancel_single (setDragRefs x x (setIsDragging true st))). exact H.
Qed.

(** A drag start leaves no callback pending. *)
Lemma handleDragStart_cancels (x : number) (st : Slider) :
  enableDrag (config p) = true -> single_animation st ->
  frames (handleDragStart p x st) = [].
Proof.
  intros He H. unfold handleDragStart. rewrite He. cbn [negb].
  pose proof (cancel_single (setDragRefs x x (setIsDragging true st)) H) as Hc.
  unfold notify. destruct (onDragStart p); exact Hc.
Qed.

Lemma handleDragMove_single (x : number) (st : Slider) :
  single_animation st -> single_animation (handleDragMove p x st).
Proof.
  intros H. unfold handleDragMove.
  destruct (negb (isDragging st) || negb (enableDrag (config p))); exact H.
Qed.

Lemma handleDragEnd_single (now : R) (st : Slider) :
  single_animation st -> single_animation (handleDragEnd p now st).
Proof.
  intros H. unfold handleDragEnd.
  destruct (negb (isDragging st) || negb (enableDrag (config p))); [exact H |].
  apply notify_single.
  destruct (JS.abs _ >? _); [destruct (_ >? _) |].
  - apply handlePrevious_single. exact H.
  - apply handleNext_single. exact H.
  - apply animateToOffset_single. exact H.
Qed.

Lemma dispatch_single (e : Event) (st : Slider) :
  single_animation st -> single_animation (dispatch p e st).
Proof.
  intros H. destruct e; cbn [dispatch]; unfold next, previous.
  - apply handleNext_single, H.
  - apply handlePrevious_single, H.
  - apply scrollToIndex_single, H.
  - apply handleDragStart_single, H.
  - apply handleDragMove_single, H.
  - apply handleDragEnd_single, H.
  - apply runFrame_single, H.
Qed.

(** Whatever happens to a slider after its mount, at most one frame callback
    is pending, the one whose handle the ref holds: every handler starts its
    animation with [immediate] false. *)
Lemma run_single (es : list Event) (st : Slider) :
  single_animation st -> single_animation (run p es st).
Proof.
  unfold run. revert st. induction es as [| e es IH]; intros st H; cbn [fold_left].
  - exact H.
  - apply IH, dispatch_single, H.
Qed.

Lemma mount_single (defaultIndex small : number) :
  single_animation (mount defaultIndex small).
Proof. left. reflexivity. Qed.

End Scheduling.

(* ================================================================== *)
(** ** Running an animation to its end *)
(* ================================================================== *)

Section Settling.

Variable p : SliderProps.

Local Open Scope js_scope.

Lemma notify_tracks (b : bool) (c : Callback) (a : Animation) (s dist k d m : R)
    (st : Slider) :
  tracks a s dist k d m st -> tracks a s dist k d m (notify b c st).
Proof. intros H. unfold notify. destruct b; exact H. Qed.

Lemma notify_currentIndex (b : bool) (c : Callback) (st : Slider) :
  currentIndex (notify b c st) = currentIndex st.
Proof. unfold notify. destruct b; reflexivity. Qed.

Lemma notify_frames (b : bool) (c : Callback) (st : Slider) :
  frames (notify b c st) = frames st.
Proof. unfold notify. destruct b; reflexivity. Qed.

Lemma animationTo_finite (st : Slider) (s tg k d m now : R) :
  sliderOffset st = Fin s ->
  springConfig (config p) = {| stiffness := Fin k; damping := Fin d; mass := Fin m |} ->
  m <> 0%R ->
  finiteAnimation (animationTo p (Fin tg) now st) s (tg - s) k d m.
Proof.
  intros Hs Hsp Hm. unfold finiteAnimation, animationTo.
  cbn [startOffset distance spring]. rewrite Hs. repeat split; assumption.
Qed.

(** After a non-immediate [animateToOffset] (and the callback the handlers
    call next) the slider tracks the new animation. *)
Lemma animateToOffset_tracks (b : bool) (c : Callback) (st : Slider)
    (s tg k d m now : R) :
  single_animation st ->
  tracks (animationTo p (Fin tg) now st) s (tg - s) k d m
         (notify b c (animateToOffset p (Fin tg) false now st)).
Proof.
  intros H. apply notify_tracks. left. apply animateToOffset_supersedes. exact H.
Qed.

(** Frames until one at or after [now + 300]: nothing is pending any more
    and the offset is the one of progress 1. *)
Lemma animateToOffset_settles (b : bool) (c : Callback) (st : Slider)
    (s tg k d m now : R) (ts : list R) (t : R) :
  single_animation st ->
  sliderOffset st = Fin s ->
  springConfig (config p) = {| stiffness := Fin k; damping := Fin d; mass := Fin m |} ->
  m <> 0%R ->
  (now + 300 <= t)%R ->
  let st' := runFrames (ts ++ [t])
               (notify b c (animateToOffset p (Fin tg) false now st)) in
  frames st' = [] /\ sliderOffset st' = Fin (offsetAt s (tg - s) k d m 1).
Proof.
  intros H Hs Hsp Hm Ht. cbv zeta. rewrite runFrames_app.
  pose proof (animationTo_finite st s tg k d m now Hs Hsp Hm) as Hfin.
  pose proof (animateToOffset_tracks b c st s tg k d m now H) as Htr.
  apply (runFrames_tracks _ _ _ _ _ _ ts _ Hfin) in Htr.
  apply (runFrame_settles _ _ _ _ _ _ t _ Hfin Htr). exact Ht.
Qed.

(** Frames the last of which is not before [now]: the offset is
    [s + (tg - s) * q] for the eased progress [q] of a progress in [0, 1]. *)
Lemma animateToOffset_eased (b : bool) (c : Callback) (st : Slider)
    (s tg k d m now : R) (ts : list R) (t : R) :
  single_animation st ->
  sliderOffset st = Fin s ->
  springConfig (config p) = {| stiffness := Fin k; damping := Fin d; mass := Fin m |} ->
  m <> 0%R ->
  (now <= t)%R ->
  exists pr : R, (0 <= pr <= 1)%R /\
    sliderOffset (runFrames (ts ++ [t])
                    (notify b c (animateToOffset p (Fin tg) false now st)))
    = Fin (offsetAt s (tg - s) k d m pr).
Proof.
  intros H Hs Hsp Hm Ht. rewrite runFrames_app.
  pose proof (animationTo_finite st s tg k d m now Hs Hsp Hm) as Hfin.
  pose proof (animateToOffset_tracks b c st s tg k d m now H) as Htr.
  apply (runFrames_tracks _ _ _ _ _ _ ts _ Hfin) in Htr.
  apply (runFrame_eased _ _ _ _ _ _ t _ Hfin Htr). exact Ht.
Qed.

Lemma offsetOfIndex_Fin (st : Slider) (i w g pk : R) :
  getItemWidth p st = Fin w -> gap (config p) = Fin g ->
  peekAdjustment p st = Fin pk ->
  offsetOfIndex p st (Fin i) = Fin (- (i * (w + g)) + pk).
Proof.
  intros Hw Hg Hpk. unfold offsetOfIndex. rewrite Hw, Hg, Hpk. reflexivity.
Qed.

(** The offset of a valid index keeps the strip of items over the container:
    it meets the condition under which the visible window is ordered. *)
Lemma offsetOfIndex_overlaps (st : Slider) (i w g pk v cw : R) :
  getItemWidth p st = Fin w -> gap (config p) = Fin g ->
  peekAdjustment p st = Fin pk ->
  let len := IZR (Z.of_nat (List.length (items p))) in
  (0 <= i <= len - v)%R -> (0 <= v)%R -> (0 < w + g)%R -> (0 <= pk <= cw)%R ->
  exists x : R, offsetOfIndex p st (Fin i) = Fin x /\
    (- (len * (w + g)) <= x <= cw)%R.
Proof.
  intros Hw Hg Hpk len Hi Hv Hpos Hp.
  rewrite (offsetOfIndex_Fin st i w g pk) by assumption.
  eexists. split; [reflexivity |]. clearbody len. split; nra.
Qed.

End Settling.

(** The default spring, on the example slider. *)
Lemma example_spring :
  springConfig (config exampleProps)
  = {| stiffness := Fin 150; damping := Fin 25; mass := Fin 1 |}.
Proof. reflexivity. Qed.

(** For a positive spring the eased progress of a positive progress is
    positive. *)
Lemma easeR_pos (k d m pr : R) :
  (0 < k)%R -> (0 < d)%R -> (0 < m)%R -> (0 < pr)%R -> (0 < easeR k d m pr)%R.
Proof.
  intros Hk Hd Hm Hp. unfold easeR.
  assert (Hq : (- k * pr / m < 0)%R).
  { apply (Rmult_lt_reg_r m); [lra |].
    replace (- k * pr / m * m)%R with (- (k * pr))%R by (field; lra). nra. }
  assert (Hr : (- d * pr < 0)%R) by nra.
  pose proof (exp_lt_1 _ Hq) as F1.
  pose proof (exp_lt_1 _ Hr) as F2.
  apply Rmult_lt_0_compat; lra.
Qed.

(** The eased progress the default spring reaches at progress 1 lies strictly
    between 0 and 1. *)
Lemma default_ease_at_end : (0 < easeR 150 25 1 1 < 1)%R.
Proof.
  pose proof (easeR_bounds 150 25 1 1) as H.
  pose proof (easeR_pos 150 25 1 1) as H0.
  split; [apply H0 | apply H]; lra.
Qed.

(* ================================================================== *)
(** ** Properties of the animation *)
(* ================================================================== *)

Section AnimationProperties.

Local Open Scope js_scope.

(** [scrollToIndex(i)] followed by frames up to one at or after the end of
    the animation. *)
Lemma scrollToIndex_run (p : SliderProps) (st : Slider)
    (i w g pk s k d m now : R) (ts : list R) (t : R) :
  single_animation st ->
  getItemWidth p st = Fin w -> gap (config p) = Fin g ->
  peekAdjustment p st = Fin pk ->
  sliderOffset st = Fin s ->
  springConfig (config p) = {| stiffness := Fin k; damping := Fin d; mass := Fin m |} ->
  m <> 0%R ->
  (now + 300 <= t)%R ->
  let st' := runFrames (ts ++ [t]) (scrollToIndex p (Fin i) now st) in
  getCurrentIndex st' = Fin i /\ frames st' = [] /\
  sliderOffset st' = Fin (offsetAt s (- (i * (w + g)) + pk - s) k d m 1).
Proof.
  intros H Hw Hg Hpk Hs Hsp Hm Ht. cbv zeta. unfold getCurrentIndex.
  split.
  - rewrite runFrames_currentIndex. unfold scrollToIndex.
    rewrite notify_currentIndex. reflexivity.
  - unfold scrollToIndex. rewrite (offsetOfIndex_Fin p st i w g pk) by assumption.
    apply (animateToOffset_settles p _ _ (setCurrentIndex (Fin i) st));
      assumption.
Qed.

(** C3, as stated, fails: on the example slider at rest at index 0,
    [scrollToIndex(1)] followed by the frame at 300 leaves the index at 1 but
    the offset short of -108, at [-108 * (1 - e^-150) * (1 - e^-25)]. *)
Lemma scrollToIndex_misses_target :
  let st' := runFrames [300%R]
               (scrollToIndex exampleProps (num 1) 0 (exampleState (num 0) (num 0))) in
  ~ (getCurrentIndex st' = num 1 /\ sliderOffset st' = Fin (- (1 * (100 + 8)) + 0)).
Proof.
  cbv zeta. intros [_ Ho].
  destruct (scrollToIndex_run exampleProps (exampleState (num 0) (num 0))
              1 100 8 0 0 150 25 1 0 [] 300) as (_ & _ & E);
    try reflexivity; try lra.
  - left. reflexivity.
  - apply getItemWidth_example.
  - pose proof (eq_trans (eq_sym Ho) E) as X. injection X as X.
    unfold offsetAt in X. pose proof default_ease_at_end. lra.
Qed.

(** C3, amended: for every index [i] (no bounds are checked), finite layout
    values and a positive spring, [scrollToIndex(i)] followed by frames up to
    one at or after 300 time units yields [getCurrentIndex() = i], leaves no
    animation pending and leaves the offset at
    [start + (target - start) * (1 - e^(-stiffness/mass)) * (1 - e^(-damping))],
    where [target = -(i * (itemWidth + gap)) + peek adjustment] and [start] is
    the offset at the call.  That offset lies between [start] and
    [target]. *)
Theorem scrollToIndex_settled (p : SliderProps) (st : Slider)
    (i w g pk s k d m now : R) (ts : list R) (t : R) :
  single_animation st ->
  getItemWidth p st = Fin w -> gap (config p) = Fin g ->
  peekAdjustment p st = Fin pk ->
  sliderOffset st = Fin s ->
  springConfig (config p) = {| stiffness := Fin k; damping := Fin d; mass := Fin m |} ->
  (0 < k)%R -> (0 < d)%R -> (0 < m)%R ->
  (now + 300 <= t)%R ->
  let target := (- (i * (w + g)) + pk)%R in
  let final :=
    (s + (target - s)
         * ((1 - Rtrigo_def.exp (- k * 1 / m)) * (1 - Rtrigo_def.exp (- d * 1))))%R in
  let st' := runFrames (ts ++ [t]) (scrollToIndex p (Fin i) now st) in
  getCurrentIndex st' = Fin i /\ frames st' = [] /\
  sliderOffset st' = Fin final /\
  (Rmin s target <= final <= Rmax s target)%R.
Proof.
  intros H Hw Hg Hpk Hs Hsp Hk Hd Hm Ht target final st'.
  destruct (scrollToIndex_run p st i w g pk s k d m now ts t) as (Hi & Hf & Ho);
    try assumption; try lra.
  fold st' in Hi, Hf, Ho.
  assert (Hq : (0 <= easeR k d m 1 < 1)%R) by (apply easeR_bounds; lra).
  assert (Hfin : final = offsetAt s (target - s) k d m 1) by reflexivity.
  repeat split; try assumption.
  - rewrite Hfin. unfold offsetAt. apply between_endpoints. lra.
  - rewrite Hfin. unfold offsetAt. apply between_endpoints. lra.
Qed.

(** The amended C3 on the example slider: from rest at index 0 to index 3. *)
Lemma scrollToIndex_settled_witness :
  let st' := runFrames ([100; 200] ++ [350])%R
               (scrollToIndex exampleProps (Fin 3) 0 (exampleState (num 0) (num 0))) in
  getCurrentIndex st' = Fin 3 /\ frames st' = [].
Proof.
  destruct (scrollToIndex_settled exampleProps (exampleState (num 0) (num 0))
              3 100 8 0 0 150 25 1 0 [100; 200]%R 350) as (Hi & Hf & _);
    try reflexivity; try lra.
  - left. reflexivity.
  - apply getItemWidth_example.
  - split; assumption.
Defined.

(** C7: an animation started by [animateToOffset] from the finite offset
    [start] to the finite [target] with positive stiffness, damping and mass
    writes, at every frame not before its start, an offset
    [start + (target - start) * (1 - e^(-stiffness*progress/mass)) * (1 - e^(-damping*progress))]
    with [progress] in [0, 1], and that offset lies between [start] and
    [target]. *)
Theorem animation_never_overshoots (p : SliderProps) (st : Slider)
    (s tg k d m now : R) (ts : list R) (t : R) :
  single_animation st ->
  sliderOffset st = Fin s ->
  springConfig (config p) = {| stiffness := Fin k; damping := Fin d; mass := Fin m |} ->
  (0 < k)%R -> (0 < d)%R -> (0 < m)%R ->
  (now <= t)%R ->
  exists pr o : R,
    (0 <= pr <= 1)%R /\
    o = (s + (tg - s)
             * ((1 - Rtrigo_def.exp (- k * pr / m)) * (1 - Rtrigo_def.exp (- d * pr))))%R /\
    sliderOffset (runFrames (ts ++ [t]) (animateToOffset p (Fin tg) false now st))
      = Fin o /\
    (Rmin s tg <= o <= Rmax s tg)%R.
Proof.
  intros H Hs Hsp Hk Hd Hm Ht.
  destruct (animateToOffset_eased p false DragEnded st s tg k d m now ts t)
    as (pr & Hpr & Ho); try assumption; try lra.
  cbn [notify] in Ho.
  exists pr, (offsetAt s (tg - s) k d m pr).
  split; [exact Hpr |]. split; [reflexivity |]. split; [exact Ho |].
  unfold offsetAt. apply between_endpoints.
  pose proof (easeR_bounds k d m pr Hk Hd Hm Hpr). lra.
Qed.

(** C7 on the example slider: three frames of an animation from 0 to -108. *)
Lemma animation_never_overshoots_witness :
  exists pr o : R,
    (0 <= pr <= 1)%R /\
    o = (0 + (-108 - 0)
             * ((1 - Rtrigo_def.exp (- 150 * pr / 1)) * (1 - Rtrigo_def.exp (- 25 * pr))))%R /\
    sliderOffset (runFrames ([100; 200] ++ [250])%R
                    (animateToOffset exampleProps (Fin (-108)) false 0
                       (exampleState (num 0) (num 0))))
      = Fin o /\
    (Rmin 0 (-108) <= o <= Rmax 0 (-108))%R.
Proof.
  apply (animation_never_overshoots exampleProps (exampleState (num 0) (num 0))
           0 (-108) 150 25 1 0 [100; 200]%R 250);
    try reflexivity; try lra.
  left. reflexivity.
Defined.

End AnimationProperties.

(* ================================================================== *)
(** ** An immediate call during an animation *)
(* ================================================================== *)

Section StaleFrame.

Local Open Scope js_scope.

Lemma inFlightAnimation_finite :
  finiteAnimation inFlightAnimation 0 (-108 - 0) 150 25 1.
Proof.
  apply (animationTo_finite exampleProps (exampleState (num 0) (num 0))
           0 (-108) 150 25 1 0); try reflexivity. lra.
Qed.

Lemma inFlight_animating : animating inFlightAnimation inFlight.
Proof.
  assert (H : animating inFlightAnimation
                (animateToOffset exampleProps (num (-108)) false 0
                   (exampleState (num 0) (num 0)))).
  { apply animateToOffset_supersedes. left. reflexivity. }
  destruct (runFrame_animating _ _ _ _ _ _ 150 _ inFlightAnimation_finite H)
    as [(_ & _ & Ha) | (Hp & _)].
  - exact Ha.
  - exfalso. cbn [startTime inFlightAnimation animationTo] in Hp.
    unfold progressR, Rmin in Hp.
    destruct (Rle_dec ((150 - 0) / 300) 1); lra.
Qed.

(** The branch for [immediate], which no call site of [animateToOffset]
    takes: while the animation towards -108 is in flight, a call with
    [immediate] true would write the offset 0 and cancel nothing, so the
    callback of the old animation would still be pending and the next frame
    would overwrite the offset with the value of the old animation. *)
Example immediate_leaves_stale_animation :
  let snapped := animateToOffset exampleProps (num 0) true 200 inFlight in
  frames inFlight = [(animationRef inFlight, inFlightAnimation)]
  /\ frames snapped = frames inFlight
  /\ sliderOffset snapped = num 0
  /\ sliderOffset (runFrame 300 snapped) = Fin (-108 * easeR 150 25 1 1)
  /\ sliderOffset (runFrame 300 snapped) <> num 0.
Proof.
  cbv zeta. pose proof inFlight_animating as Ha.
  rewrite animateToOffset_immediate.
  assert (Hs : animating inFlightAnimation (setSliderOffset (num 0) inFlight))
    by exact Ha.
  destruct (runFrame_settles _ _ _ _ _ _ 300 _ inFlightAnimation_finite (or_introl Hs))
    as (_ & Ho).
  { cbn [startTime inFlightAnimation animationTo]. lra. }
  assert (E : offsetAt 0 (-108 - 0) 150 25 1 1 = (-108 * easeR 150 25 1 1)%R)
    by (unfold offsetAt; ring).
  rewrite E in Ho.
  repeat split.
  - exact Ha.
  - exact Ho.
  - rewrite Ho. intros X. injection X as X.
    pose proof default_ease_at_end. lra.
Qed.

(** With [immediate] false the same call does cancel: only the new animation
    is pending afterwards. *)
Example animated_call_cancels :
  frames (animateToOffset exampleProps (num 0) false 200 inFlight)
  = [(nextHandle inFlight, animationTo exampleProps (num 0) 200 inFlight)].
Proof.
  assert (S1 : single_animation inFlight)
    by (right; exists inFlightAnimation; exact inFlight_animating).
  pose proof (animateToOffset_supersedes exampleProps (num 0) 200 inFlight S1) as H.
  unfold animating in H. rewrite H. reflexivity.
Qed.

End StaleFrame.

(* ================================================================== *)
(** ** Navigation *)
(* ================================================================== *)

Section Navigation.

Variable p : SliderProps.

Local Open Scope js_scope.

Lemma handleNext_goTo (now : R) (st : Slider) :
  handleNext p now st
  = goTo p (JS.min (itemsLength p - visibleItems st) (currentIndex st + num 1)) now st.
Proof. reflexivity. Qed.

Lemma handlePrevious_goTo (now : R) (st : Slider) :
  handlePrevious p now st
  = goTo p (JS.max (num 0) (currentIndex st - num 1)) now st.
Proof. reflexivity. Qed.

Lemma scrollToIndex_goTo (index : number) (now : R) (st : Slider) :
  scrollToIndex p index now st = goTo p index now st.
Proof. reflexivity. Qed.

Lemma goTo_currentIndex (index : number) (now : R) (st : Slider) :
  currentIndex (goTo p index now st) = index.
Proof. unfold goTo. rewrite notify_currentIndex. reflexivity. Qed.

(** The animation a navigation starts: a new handle, stored in the ref, for
    a closure aimed at the offset of the index. *)
Lemma goTo_frames (index : number) (now : R) (st : Slider) :
  animationRef (goTo p index now st) = nextHandle st /\
  frames (goTo p index now st)
  = others st ++ [(nextHandle st, animationTo p (offsetOfIndex p st index) now st)].
Proof.
  unfold goTo, notify. destruct (onSlideChange p); split; reflexivity.
Qed.

Lemma goTo_calls (index : number) (now : R) (st : Slider) :
  calls (goTo p index now st)
  = if onSlideChange p then calls st ++ [SlideChange index] else calls st.
Proof. unfold goTo, notify. destruct (onSlideChange p); reflexivity. Qed.

(** A navigation leaves the measurements and the offset as they are. *)
Lemma goTo_layout (index : number) (now : R) (st : Slider) :
  containerWidth (goTo p index now st) = containerWidth st /\
  visibleItems (goTo p index now st) = visibleItems st /\
  peekWidth (goTo p index now st) = peekWidth st /\
  sliderOffset (goTo p index now st) = sliderOffset st.
Proof. unfold goTo, notify. destruct (onSlideChange p); repeat split. Qed.

Lemma goTo_pendingTargets (index : number) (now : R) (st : Slider) :
  single_animation st ->
  pendingTargets (goTo p index now st) = [offsetOfIndex p st index].
Proof.
  intros H. unfold pendingTargets.
  destruct (goTo_frames index now st) as [_ Hf]. rewrite Hf.
  pose proof (cancel_single st H) as Hc. unfold cancelAnimationFrame in Hc.
  cbn [frames] in Hc. unfold others. rewrite Hc. reflexivity.
Qed.

Lemma goTo_single (index : number) (now : R) (st : Slider) :
  single_animation st -> single_animation (goTo p index now st).
Proof. intros H. rewrite <- scrollToIndex_goTo. apply scrollToIndex_single, H. Qed.

(** After a navigation the one pending callback is the animation towards the
    offset of the index. *)
Lemma goTo_animating (index : number) (now : R) (st : Slider) :
  single_animation st ->
  animating (animationTo p (offsetOfIndex p st index) now st) (goTo p index now st).
Proof.
  intros H. unfold animating.
  destruct (goTo_frames index now st) as [Hr Hf]. rewrite Hr, Hf.
  pose proof (cancel_single st H) as Hc. unfold cancelAnimationFrame in Hc.
  cbn [frames] in Hc. unfold others. rewrite Hc. reflexivity.
Qed.



End Navigation.

(* ================================================================== *)
(** ** Properties of next() and previous() *)
(* ================================================================== *)

Section NavigationProperties.

Local Open Scope js_scope.

(** C10: every call of [next()] or [previous()], whatever the current index,
    stores the clamped index, calls [onSlideChange] (when the property is
    given) with that index, and registers a new frame callback, whose handle
    goes to the ref, for an animation to
    [-(index * (itemWidth + gap)) + peek adjustment]. *)
Theorem navigation_always_notifies_and_animates (p : SliderProps) (now : R)
    (st : Slider) :
  onSlideChange p = true ->
  let nextIndex := JS.min (itemsLength p - visibleItems st) (currentIndex st + num 1) in
  let prevIndex := JS.max (num 0) (currentIndex st - num 1) in
  let target (index : number) :=
    - (index * (getItemWidth p st + gap (config p))) + peekAdjustment p st in
  (currentIndex (next p now st) = nextIndex /\
   calls (next p now st) = calls st ++ [SlideChange nextIndex] /\
   animationRef (next p now st) = nextHandle st /\
   In (nextHandle st, animationTo p (target nextIndex) now st) (frames (next p now st)))
  /\
  (currentIndex (previous p now st) = prevIndex /\
   calls (previous p now st) = calls st ++ [SlideChange prevIndex] /\
   animationRef (previous p now st) = nextHandle st /\
   In (nextHandle st, animationTo p (target prevIndex) now st) (frames (previous p now st))).
Proof.
  intros Hcb nextIndex prevIndex target. unfold next, previous.
  rewrite handleNext_goTo, handlePrevious_goTo. fold nextIndex prevIndex.
  split.
  - destruct (goTo_frames p nextIndex now st) as [Hr Hf].
    rewrite goTo_currentIndex, goTo_calls, Hcb, Hr, Hf.
    repeat split. apply in_or_app. right. left. reflexivity.
  - destruct (goTo_frames p prevIndex now st) as [Hr Hf].
    rewrite goTo_currentIndex, goTo_calls, Hcb, Hr, Hf.
    repeat split. apply in_or_app. right. left. reflexivity.
Qed.

(** C10 on the example slider at its first index, where [previous()] does
    not move. *)
Lemma navigation_always_notifies_and_animates_witness :
  currentIndex (previous exampleProps 0 (exampleState (num 0) (num 0)))
    = JS.max (num 0) (num 0 - num 1)
  /\ calls (previous exampleProps 0 (exampleState (num 0) (num 0)))
     = [SlideChange (JS.max (num 0) (num 0 - num 1))].
Proof.
  destruct (navigation_always_notifies_and_animates exampleProps 0
              (exampleState (num 0) (num 0))) as [_ (Hi & Hc & _)].
  - reflexivity.
  - split; [exact Hi | exact Hc].
Defined.



(** C9: with fewer items than visible items and an index that is not
    negative, [next()] stores [items.length - visibleItems], a negative
    index. *)
Theorem next_goes_negative (p : SliderProps) (now : R) (st : Slider) (c v : R) :
  currentIndex st = Fin c -> visibleItems st = Fin v ->
  (0 <= c)%R ->
  let len := IZR (Z.of_nat (List.length (items p))) in
  (len < v)%R ->
  getCurrentIndex (next p now st) = Fin (len - v) /\ (len - v < 0)%R.
Proof.
  intros Hc Hv Hc0 len Hlt. unfold getCurrentIndex, next.
  rewrite handleNext_goTo, goTo_currentIndex, Hc, Hv.
  unfold itemsLength. fin_simpl. fold len. clearbody len.
  split; [| lra]. f_equal. unfold Rmin.
  destruct (Rle_dec (len + - v) (c + 1)); lra.
Qed.

(** C9 on that slider: from index 0, [next()] stores the index -2. *)
Lemma next_goes_negative_witness :
  getCurrentIndex (next twoItemProps 0 (exampleState (num 0) (num 0))) = Fin (2 - 4)
  /\ (2 - 4 < 0)%R.
Proof.
  apply (next_goes_negative twoItemProps 0 (exampleState (num 0) (num 0)) 0 4);
    try reflexivity; cbn; lra.
Defined.

End NavigationProperties.

(* ================================================================== *)
(** ** Three steps on the example slider *)
(* ================================================================== *)

Section ThreeSteps.

Local Open Scope js_scope.

Lemma getItemWidth_measured (st : Slider) :
  measured st -> getItemWidth exampleProps st = Fin 100.
Proof.
  intros (Hcw & Hv & Hpw).
  rewrite (getItemWidth_Fin exampleProps st 424 4 8 0);
    try assumption; try reflexivity; try lra.
  cbn [peek config exampleProps exampleConfig]. f_equal. lra.
Qed.

Lemma runFrames_measured (ts : list R) (st : Slider) :
  measured st -> measured (runFrames ts st).
Proof.
  intros (Hcw & Hv & Hpw).
  pose proof (runFrames_untouched ts st) as H. unfold untouched in H.
  injection H as E1 _ _ E2 E3 _ _ _. unfold measured. rewrite E1, E2, E3.
  repeat split; assumption.
Qed.

Lemma runFrames_calls (ts : list R) (st : Slider) :
  calls (runFrames ts st) = calls st.
Proof.
  pose proof (runFrames_untouched ts st) as H. unfold untouched in H. congruence.
Qed.

Lemma runFrames_single (ts : list R) (st : Slider) :
  single_animation st -> single_animation (runFrames ts st).
Proof.
  unfold runFrames. revert st. induction ts as [| t ts IH]; intros st H; cbn [fold_left].
  - exact H.
  - apply IH, runFrame_single, H.
Qed.

(** One [next()] on the example slider below its last index. *)
Lemma next_example_step (st : Slider) (k k' tgt now : R) :
  measured st -> single_animation st ->
  currentIndex st = Fin k ->
  k' = (k + 1)%R -> (k' <= 6)%R -> tgt = (- (108 * k'))%R ->
  let st' := next exampleProps now st in
  currentIndex st' = Fin k' /\ pendingTargets st' = [Fin tgt] /\
  calls st' = calls st ++ [SlideChange (Fin k')] /\
  measured st' /\ single_animation st'.
Proof.
  intros Hm Hs Hk Hk' Hle Ht. cbv zeta. unfold next. rewrite handleNext_goTo.
  pose proof (getItemWidth_measured st Hm) as Hw.
  destruct Hm as (Hcw & Hv & Hpw).
  assert (Hidx : JS.min (itemsLength exampleProps - visibleItems st)
                        (currentIndex st + num 1) = Fin k').
  { rewrite itemsLength_example, Hv, Hk. fin_simpl. f_equal.
    unfold Rmin. case_R. }
  rewrite Hidx.
  destruct (goTo_layout exampleProps (Fin k') now st) as (L1 & L2 & L3 & _).
  rewrite goTo_currentIndex, goTo_calls, (goTo_pendingTargets _ _ _ _ Hs).
  repeat split.
  - f_equal. rewrite (offsetOfIndex_Fin exampleProps st k' 100 8 0);
      try assumption; try reflexivity. f_equal. lra.
  - congruence.
  - congruence.
  - congruence.
  - apply goTo_single, Hs.
Qed.

(** C8: on the slider with ten items, four visible, gap 8 and item width 100,
    peek disabled, three calls of [next()] from index 0, with any frames run
    in between, give the indices 1, 2, 3 and aim the animation at the offsets
    -108, -216, -324; [onSlideChange] is called with 1, 2 and 3. *)
Theorem next_three_times (t1 t2 t3 : R) (fs1 fs2 : list R) :
  let st0 := exampleState (num 0) (num 0) in
  let st1 := next exampleProps t1 st0 in
  let st2 := next exampleProps t2 (runFrames fs1 st1) in
  let st3 := next exampleProps t3 (runFrames fs2 st2) in
  getItemWidth exampleProps st0 = Fin 100 /\
  (getCurrentIndex st1, getCurrentIndex st2, getCurrentIndex st3)
    = (Fin 1, Fin 2, Fin 3) /\
  (pendingTargets st1, pendingTargets st2, pendingTargets st3)
    = ([Fin (-108)], [Fin (-216)], [Fin (-324)]) /\
  calls st3 = [SlideChange (Fin 1); SlideChange (Fin 2); SlideChange (Fin 3)].
Proof.
  intros st0 st1 st2 st3.
  assert (M0 : measured st0) by (repeat split).
  assert (S0 : single_animation st0) by (left; reflexivity).
  destruct (next_example_step st0 0 1 (-108) t1 M0 S0)
    as (I1 & T1 & C1 & M1 & S1); try reflexivity; try lra.
  fold st1 in I1, T1, C1, M1, S1.
  destruct (next_example_step (runFrames fs1 st1) 1 2 (-216) t2)
    as (I2 & T2 & C2 & M2 & S2); try lra.
  { apply runFrames_measured, M1. }
  { apply runFrames_single, S1. }
  { rewrite runFrames_currentIndex. exact I1. }
  fold st2 in I2, T2, C2, M2, S2.
  destruct (next_example_step (runFrames fs2 st2) 2 3 (-324) t3)
    as (I3 & T3 & C3 & M3 & S3); try lra.
  { apply runFrames_measured, M2. }
  { apply runFrames_single, S2. }
  { rewrite runFrames_currentIndex. exact I2. }
  fold st3 in I3, T3, C3, M3, S3.
  split; [apply getItemWidth_example |].
  unfold getCurrentIndex. rewrite I1, I2, I3, T1, T2, T3.
  repeat split.
  rewrite C3, runFrames_calls, C2, runFrames_calls, C1. reflexivity.
Qed.

End ThreeSteps.

(* ================================================================== *)
(** ** The end of a drag *)
(* ================================================================== *)

Section DragEnd.

Local Open Scope js_scope.

(** The three outcomes of [handleDragEnd] on a slider that is being dragged,
    by the drag [x1 - x0] and the threshold [w * th]. *)
Lemma handleDragEnd_cases (p : SliderProps) (st : Slider) (now x0 x1 w th : R) :
  isDragging st = true -> enableDrag (config p) = true ->
  dragStartRef st = Fin x0 -> dragCurrentRef st = Fin x1 ->
  getItemWidth p st = Fin w -> dragThreshold (config p) = Fin th ->
  handleDragEnd p now st
  = notify (onDragEnd p) DragEnded
      (if Rlt_dec (w * th) (Rabs (x1 - x0)) then
         if Rlt_dec 0 (x1 - x0)
         then handlePrevious p now (setIsDragging false st)
         else handleNext p now (setIsDragging false st)
       else
         animateToOffset p (offsetOfIndex p st (currentIndex st)) false now
           (setIsDragging false st)).
Proof.
  intros Hd He H0 H1 Hw Hth. unfold handleDragEnd.
  rewrite Hd, He, H0, H1, Hw, Hth. cbn [negb orb].
  unfold JS.gtb, num, JS.of_Z. cbn [JS.sub JS.neg JS.add JS.abs JS.mul JS.ltb].
  unfold Rminus.
  destruct (Rlt_dec (w * th) (Rabs (x1 + - x0))); [| reflexivity].
  destruct (Rlt_dec 0 (x1 + - x0)); reflexivity.
Qed.

(** C4, as stated, fails at the threshold: the drag of 25 pixels is at least
    [itemWidth * dragThreshold = 100 * 1/4], yet [handleDragEnd] keeps the
    index 2 instead of moving to index 1. *)
Lemma drag_at_threshold_snaps_back :
  let st := draggedToThreshold in
  isDragging st = true /\
  dragStartRef st = Fin 100 /\ dragCurrentRef st = Fin 125 /\
  getItemWidth exampleProps st = Fin 100 /\
  (Rabs (125 - 100) >= 100 * (1 / 4))%R /\
  currentIndex (handleDragEnd exampleProps 0 st) = Fin 2 /\
  currentIndex (handleDragEnd exampleProps 0 st) <> Fin (Rmax 0 (2 - 1)).
Proof.
  cbv zeta.
  assert (Hw : getItemWidth exampleProps draggedToThreshold = Fin 100)
    by (apply getItemWidth_measured; repeat split).
  assert (Ha : Rabs (125 - 100) = 25%R) by (rewrite Rabs_pos_eq; lra).
  assert (Hi : currentIndex (handleDragEnd exampleProps 0 draggedToThreshold) = Fin 2).
  { rewrite (handleDragEnd_cases exampleProps draggedToThreshold 0 100 125 100 (1 / 4));
      try reflexivity; try exact Hw.
    rewrite Ha. destruct (Rlt_dec (100 * (1 / 4)) 25) as [Hlt | _]; [lra |].
    rewrite notify_currentIndex. reflexivity. }
  repeat split; try exact Hw; try exact Hi.
  - rewrite Ha. lra.
  - rewrite Hi. intros X. injection X as X. unfold Rmax in X.
    destruct (Rle_dec 0 (2 - 1)); lra.
Qed.

(** C4, amended: when a drag ends on a slider being dragged, with finite
    values, a drag magnitude [|dragCurrent - dragStart|] strictly above
    [itemWidth * dragThreshold] moves the index by one in the drag direction,
    to [max(0, index - 1)] for a drag to the right and to
    [min(items.length - visibleItems, index + 1)] for a drag to the left, both
    within [0, items.length - visibleItems] when the index was; a magnitude
    of at most [itemWidth * dragThreshold] keeps the index and starts an
    animation to its offset [-(index * (itemWidth + gap)) + peek adjustment]. *)
Theorem drag_end_outcome (p : SliderProps) (st : Slider)
    (now x0 x1 w th c v : R) :
  isDragging st = true -> enableDrag (config p) = true ->
  dragStartRef st = Fin x0 -> dragCurrentRef st = Fin x1 ->
  getItemWidth p st = Fin w -> dragThreshold (config p) = Fin th ->
  currentIndex st = Fin c -> visibleItems st = Fin v ->
  let len := IZR (Z.of_nat (List.length (items p))) in
  let st' := handleDragEnd p now st in
  let back :=
    animationTo p (- (Fin c * (Fin w + gap (config p))) + peekAdjustment p st) now st in
  ((w * th < Rabs (x1 - x0))%R -> (0 < x1 - x0)%R ->
     currentIndex st' = Fin (Rmax 0 (c - 1)))
  /\ ((w * th < Rabs (x1 - x0))%R -> (x1 - x0 < 0)%R ->
     currentIndex st' = Fin (Rmin (len - v) (c + 1)))
  /\ ((0 <= c <= len - v)%R ->
     (0 <= Rmax 0 (c - 1) <= len - v)%R /\ (0 <= Rmin (len - v) (c + 1) <= len - v)%R)
  /\ ((Rabs (x1 - x0) <= w * th)%R ->
     currentIndex st' = Fin c /\ animationRef st' = nextHandle st /\
     In (nextHandle st, back) (frames st')).
Proof.
  intros Hd He H0 H1 Hw Hth Hc Hv len st' back.
  pose proof (handleDragEnd_cases p st now x0 x1 w th Hd He H0 H1 Hw Hth) as E.
  fold st' in E.
  repeat split.
  - rewrite E. destruct (Rlt_dec (w * th) (Rabs (x1 - x0))); [| lra].
    destruct (Rlt_dec 0 (x1 - x0)); [| lra].
    rewrite notify_currentIndex, handlePrevious_goTo, goTo_currentIndex.
    cbn [currentIndex setIsDragging]. rewrite Hc. fin_simpl. reflexivity.
  - rewrite E. destruct (Rlt_dec (w * th) (Rabs (x1 - x0))); [| lra].
    destruct (Rlt_dec 0 (x1 - x0)); [lra |].
    rewrite notify_currentIndex, handleNext_goTo, goTo_currentIndex.
    cbn [currentIndex visibleItems setIsDragging]. rewrite Hc, Hv.
    unfold itemsLength. fin_simpl. reflexivity.
  - apply Rmax_l.
  - apply Rmax_lub; lra.
  - apply Rmin_glb; lra.
  - apply Rmin_l.
  - rewrite E. destruct (Rlt_dec (w * th) (Rabs (x1 - x0))); [lra |].
    rewrite notify_currentIndex. exact Hc.
  - rewrite E. destruct (Rlt_dec (w * th) (Rabs (x1 - x0))); [lra |].
    unfold notify. destruct (onDragEnd p); reflexivity.
  - rewrite E. destruct (Rlt_dec (w * th) (Rabs (x1 - x0))); [lra |].
    rewrite notify_frames. unfold animateToOffset, requestAnimationFrame.
    cbn [frames]. apply in_or_app. right. left.
    unfold back, animationTo, offsetOfIndex. rewrite Hc, Hw. reflexivity.
Qed.

(** The amended C4 on that drag of 60 pixels to the right: index 1. *)
Lemma drag_end_outcome_witness :
  currentIndex (handleDragEnd exampleProps 0 draggedRight) = Fin (Rmax 0 (2 - 1)).
Proof.
  destruct (drag_end_outcome exampleProps draggedRight 0 100 160 100 (1 / 4) 2 4)
    as (H & _); try reflexivity.
  - apply getItemWidth_measured. repeat split.
  - apply H.
    + rewrite Rabs_pos_eq; lra.
    + lra.
Defined.

End DragEnd.

(* ================================================================== *)
(** ** More on the visible window and the item width *)
(* ================================================================== *)

Section WindowCoverage.

Local Open Scope js_scope.

(** With virtualization enabled, finite inputs, a positive pitch and a gap
    and an overscan that are not negative, every item that shows in the
    container lies in the computed window: if the strip position
    [offset + k * (itemWidth + gap)] of item [k] is left of the right edge and
    its right end is right of the left edge, then [start <= k < end]. *)
Theorem visible_range_covers (p : SliderProps) (st : Slider)
    (v : Virtualization) (o w g x cw : R) (k : Z) :
  virtualization (config p) = Some v -> enabled v = true ->
  overscanOf v = Fin o ->
  getItemWidth p st = Fin w -> gap (config p) = Fin g ->
  sliderOffset st = Fin x -> containerWidth st = Fin cw ->
  (0 < w + g)%R -> (0 <= g)%R -> (0 <= o)%R ->
  (0 <= k < Z.of_nat (List.length (items p)))%Z ->
  (x + IZR k * (w + g) < cw)%R ->
  (0 < x + IZR k * (w + g) + w)%R ->
  exists s e : R,
    calculateVisibleRange p st = {| start := Fin s; end_ := Fin e |} /\
    (s <= IZR k < e)%R.
Proof.
  intros Hv Hen Ho Hw Hg Hx Hcw Hpos Hg0 Ho0 [Hk0 Hk1] Hleft Hright.
  unfold calculateVisibleRange. rewrite Hv, Hen, Ho, Hw, Hg, Hx, Hcw.
  unfold itemsLength. fin_simpl.
  do 2 eexists. split; [reflexivity |].
  set (a := (- x / (w + g))%R).
  set (b := ((- x + cw) / (w + g))%R).
  assert (Ha : (a * (w + g) = - x)%R) by (unfold a; field; lra).
  assert (Hb : (b * (w + g) = - x + cw)%R) by (unfold b; field; lra).
  clearbody a b.
  assert (Hka : (a < IZR k + 1)%R)
    by (apply (Rmult_lt_reg_r (w + g)); [lra | rewrite Ha; nra]).
  assert (Hkb : (IZR k < b)%R)
    by (apply (Rmult_lt_reg_r (w + g)); [lra | rewrite Hb; nra]).
  destruct (floorR_spec a) as [Hfa _]. destruct (ceilR_spec b) as [_ Hcb].
  assert (Hfk : (IZR (JS.floorR a) <= IZR k)%R).
  { apply IZR_le. assert (JS.floorR a < k + 1)%Z; [| lia].
    apply lt_IZR. rewrite plus_IZR. lra. }
  assert (Hk0' : (0 <= IZR k)%R) by (apply IZR_le; lia).
  assert (Hk1' : (IZR k < IZR (Z.of_nat (List.length (items p))))%R)
    by (apply IZR_lt; lia).
  split.
  - apply Rmax_lub; lra.
  - apply Rmin_glb_lt; lra.
Qed.

(** The item at index 1 of the example slider at rest at index 1. *)
Lemma visible_range_covers_witness :
  exists s e : R,
    calculateVisibleRange exampleProps (exampleState (num 1) (num (-108)))
      = {| start := Fin s; end_ := Fin e |} /\
    (s <= 1 < e)%R.
Proof.
  apply (visible_range_covers exampleProps (exampleState (num 1) (num (-108)))
           {| enabled := true; overscan := Some (num 2) |} 2 100 8 (-108) 424 1);
    try reflexivity; try lra.
  - apply getItemWidth_example.
  - cbn. lia.
Defined.

(** With virtualization enabled, finite inputs and a positive pitch, the
    window holds fewer than [containerWidth / (itemWidth + gap) + 2 + 2 * overscan]
    indices, however many items there are. *)
Theorem visible_range_size (p : SliderProps) (st : Slider)
    (v : Virtualization) (o w g x cw : R) :
  virtualization (config p) = Some v -> enabled v = true ->
  overscanOf v = Fin o ->
  getItemWidth p st = Fin w -> gap (config p) = Fin g ->
  sliderOffset st = Fin x -> containerWidth st = Fin cw ->
  (0 < w + g)%R ->
  exists s e : R,
    calculateVisibleRange p st = {| start := Fin s; end_ := Fin e |} /\
    (e - s < cw / (w + g) + 2 + 2 * o)%R.
Proof.
  intros Hv Hen Ho Hw Hg Hx Hcw Hpos.
  unfold calculateVisibleRange. rewrite Hv, Hen, Ho, Hw, Hg, Hx, Hcw.
  unfold itemsLength. fin_simpl.
  do 2 eexists. split; [reflexivity |].
  set (a := (- x / (w + g))%R).
  set (b := ((- x + cw) / (w + g))%R).
  assert (Hab : (b - a = cw / (w + g))%R) by (unfold a, b; field; lra).
  destruct (floorR_spec a) as [_ Hfa]. destruct (ceilR_spec b) as [Hcb _].
  clearbody a b.
  pose proof (Rmax_r 0 (IZR (JS.floorR a) + - o)) as Hs.
  pose proof (Rmin_r (IZR (Z.of_nat (List.length (items p))))
                (IZR (JS.ceilR b) + o)) as He.
  lra.
Qed.

Lemma visible_range_size_witness :
  exists s e : R,
    calculateVisibleRange exampleProps (exampleState (num 1) (num (-108)))
      = {| start := Fin s; end_ := Fin e |} /\
    (e - s < 424 / (100 + 8) + 2 + 2 * 2)%R.
Proof.
  apply (visible_range_size exampleProps (exampleState (num 1) (num (-108)))
           {| enabled := true; overscan := Some (num 2) |} 2 100 8 (-108) 424);
    try reflexivity; try lra.
  apply getItemWidth_example.
Defined.

(** On a measured slider with finite settings, the visible items, the gaps
    between them and the peek space on both sides fill the container exactly. *)
Theorem item_width_fills_container (p : SliderProps) (st : Slider)
    (cw v g pw : R) :
  containerWidth st = Fin cw -> cw <> 0%R ->
  visibleItems st = Fin v -> v <> 0%R ->
  gap (config p) = Fin g ->
  peekWidth st = Fin pw ->
  exists w : R,
    getItemWidth p st = Fin w /\
    (v * w + (v - 1) * g + (if peek (config p) then 2 * pw else 0) = cw)%R.
Proof.
  intros Hcw Hcw0 Hv Hv0 Hg Hpw.
  rewrite (getItemWidth_Fin p st cw v g pw) by assumption.
  eexists. split; [reflexivity |].
  destruct (peek (config p)); field; assumption.
Qed.

Lemma item_width_fills_container_witness :
  exists w : R,
    getItemWidth exampleProps (exampleState (num 0) (num 0)) = Fin w /\
    (4 * w + (4 - 1) * 8 + 0 = 424)%R.
Proof.
  apply (item_width_fills_container exampleProps (exampleState (num 0) (num 0))
           424 4 8 0); try reflexivity; lra.
Defined.

End WindowCoverage.

(* ================================================================== *)
(** ** Breakpoint resolution *)
(* ================================================================== *)

Section BreakpointResolution.

Local Open Scope js_scope.

Lemma geb_Fin (a b : R) : Op.geb (Fin a) (Fin b) = true <-> (b <= a)%R.
Proof.
  unfold Op.geb, JS.ltb. destruct (Rlt_dec a b); cbn [negb]; split;
    try discriminate; try reflexivity; lra.
Qed.

Lemma In_insertSorted {A : Type} (cmp : A -> A -> number) (x y : A) (l : list A) :
  In y (Op.insertSorted cmp x l) <-> y = x \/ In y l.
Proof.
  induction l as [| z l IH]; cbn [Op.insertSorted].
  - cbn. intuition.
  - destruct (cmp z x >? num 0); cbn [In]; [| rewrite IH]; intuition.
Qed.

Lemma In_fold_insert {A : Type} (cmp : A -> A -> number) (y : A) (l acc : list A) :
  In y (fold_left (fun a x => Op.insertSorted cmp x a) l acc) <-> In y l \/ In y acc.
Proof.
  revert acc. induction l as [| x l IH]; intros acc; cbn [fold_left].
  - cbn. intuition.
  - rewrite IH, In_insertSorted. cbn [In]. intuition.
Qed.

(** The sorted list holds the elements of the list, no more and no less. *)
Lemma In_sort {A : Type} (cmp : A -> A -> number) (y : A) (l : list A) :
  In y (Op.sort cmp l) <-> In y l.
Proof. unfold Op.sort. rewrite In_fold_insert. cbn [In]. intuition. Qed.

Lemma widerOrEqual_trans (a b c : Responsive.Breakpoint) :
  finiteWidth a -> finiteWidth b -> finiteWidth c ->
  widerOrEqual a b -> widerOrEqual b c -> widerOrEqual a c.
Proof.
  intros [ra Ha] [rb Hb] [rc Hc]. unfold widerOrEqual.
  rewrite Ha, Hb, Hc. cbn [JS.le]. lra.
Qed.

Lemma insertSorted_sorted (x : Responsive.Breakpoint)
    (l : list Responsive.Breakpoint) :
  finiteWidth x -> Forall finiteWidth l ->
  StronglySorted widerOrEqual l ->
  StronglySorted widerOrEqual (Op.insertSorted byWidthDescending x l).
Proof.
  intros Hx Hl Hs. induction Hs as [| y l Hs IH Hy]; cbn [Op.insertSorted].
  - constructor; constructor.
  - inversion Hl as [| ? ? Hfy Hfl]; subst.
    destruct Hx as [rx Ex]. destruct Hfy as [ry Ey].
    unfold byWidthDescending at 1. rewrite Ex, Ey.
    unfold JS.gtb, num, JS.of_Z. cbn [JS.sub JS.neg JS.add JS.ltb].
    destruct (Rlt_dec 0 (rx + - ry)) as [Hlt | Hge].
    + constructor; [constructor; assumption |].
      constructor.
      * unfold widerOrEqual. rewrite Ex, Ey. cbn [JS.le]. lra.
      * rewrite Forall_forall in *. intros z Hz.
        apply (widerOrEqual_trans _ y _).
        -- exists rx; exact Ex.
        -- exists ry; exact Ey.
        -- apply Hfl, Hz.
        -- unfold widerOrEqual. rewrite Ex, Ey. cbn [JS.le]. lra.
        -- apply Hy, Hz.
    + constructor; [apply IH; assumption |].
      rewrite Forall_forall in *. intros z Hz.
      apply In_insertSorted in Hz. destruct Hz as [-> | Hz].
      * unfold widerOrEqual. rewrite Ex, Ey. cbn [JS.le]. lra.
      * apply Hy, Hz.
Qed.

Lemma Forall_insertSorted {A : Type} (P : A -> Prop) (cmp : A -> A -> number)
    (x : A) (l : list A) :
  P x -> Forall P l -> Forall P (Op.insertSorted cmp x l).
Proof.
  intros Hx Hl. rewrite Forall_forall in *. intros y Hy.
  apply In_insertSorted in Hy. destruct Hy as [-> | Hy]; auto.
Qed.

Lemma fold_insert_sorted (l acc : list Responsive.Breakpoint) :
  Forall finiteWidth l -> Forall finiteWidth acc ->
  StronglySorted widerOrEqual acc ->
  StronglySorted widerOrEqual
    (fold_left (fun a x => Op.insertSorted byWidthDescending x a) l acc).
Proof.
  revert acc. induction l as [| x l IH]; intros acc Hl Hacc Hs; cbn [fold_left].
  - exact Hs.
  - inversion Hl; subst. apply IH; try assumption.
    + apply Forall_insertSorted; assumption.
    + apply insertSorted_sorted; assumption.
Qed.

(** Breakpoints of finite width come out of the sort in descending width. *)
Lemma sort_sorted (l : list Responsive.Breakpoint) :
  Forall finiteWidth l ->
  StronglySorted widerOrEqual (Op.sort byWidthDescending l).
Proof.
  intros Hl. unfold Op.sort. apply fold_insert_sorted; [assumption | | ]; constructor.
Qed.

(** In a list of descending width, the first breakpoint that fits is the
    widest that fits. *)
Lemma find_in_sorted (w : R) (l : list Responsive.Breakpoint)
    (bp : Responsive.Breakpoint) :
  Forall finiteWidth l -> StronglySorted widerOrEqual l ->
  find (fun b => Op.geb (Fin w) (Responsive.width b)) l = Some bp ->
  In bp l /\ JS.le (Responsive.width bp) (Fin w) /\
  forall b, In b l -> JS.le (Responsive.width b) (Fin w) ->
            JS.le (Responsive.width b) (Responsive.width bp).
Proof.
  intros Hl Hs. induction Hs as [| y l Hs IH Hy]; cbn [find]; [discriminate |].
  inversion Hl as [| ? ? Hfy Hfl]; subst. destruct Hfy as [ry Ey].
  rewrite Ey. destruct (Op.geb (Fin w) (Fin ry)) eqn:Eg.
  - intros E. injection E as <-. apply geb_Fin in Eg.
    split; [left; reflexivity |]. rewrite Ey. split; [exact Eg |].
    intros b [<- | Hb] _.
    + rewrite Ey. cbn [JS.le]. lra.
    + rewrite Forall_forall in Hy. apply Hy in Hb.
      unfold widerOrEqual in Hb. rewrite Ey in Hb. exact Hb.
  - intros E. destruct (IH Hfl E) as (Hin & Hle & Hmax).
    split; [right; exact Hin |]. split; [exact Hle |].
    intros b [<- | Hb] Hbw.
    + rewrite Ey in Hbw. cbn [JS.le] in Hbw.
      apply geb_Fin in Hbw. congruence.
    + apply Hmax; assumption.
Qed.

Lemma find_none_sorted (w : R) (l : list Responsive.Breakpoint) :
  Forall finiteWidth l ->
  find (fun b => Op.geb (Fin w) (Responsive.width b)) l = None ->
  forall b, In b l -> ~ JS.le (Responsive.width b) (Fin w).
Proof.
  intros Hl Hf b Hb Hle. rewrite Forall_forall in Hl.
  destruct (Hl b Hb) as [rb Eb].
  pose proof (find_none _ _ Hf b Hb) as Hn. cbn beta in Hn.
  rewrite Eb in Hn, Hle. cbn [JS.le] in Hle. apply geb_Fin in Hle. congruence.
Qed.

(** The last breakpoint of a list of descending width is the narrowest. *)
Lemma last_of_sorted (l : list Responsive.Breakpoint) :
  l <> [] -> Forall finiteWidth l -> StronglySorted widerOrEqual l ->
  exists bp, nth_error l (List.length l - 1) = Some bp /\ In bp l /\
    forall b, In b l -> JS.le (Responsive.width bp) (Responsive.width b).
Proof.
  intros Hne Hl Hs. induction Hs as [| y l Hs IH Hy]; [contradiction |].
  inversion Hl as [| ? ? Hfy Hfl]; subst.
  destruct l as [| z l'].
  - exists y. split; [reflexivity |]. split; [left; reflexivity |].
    intros b [<- | []]. destruct Hfy as [ry Ey]. rewrite Ey. cbn [JS.le]. lra.
  - destruct IH as (bp & Hn & Hin & Hmin); [discriminate | assumption |].
    exists bp. split.
    + replace (List.length (y :: z :: l') - 1)%nat
        with (S (List.length (z :: l') - 1)) by (cbn [List.length]; lia).
      exact Hn.
    + split; [right; exact Hin |].
      intros b [<- | Hb]; [| apply Hmin, Hb].
      rewrite Forall_forall in Hy. apply (Hy bp Hin).
Qed.

End BreakpointResolution.

Section BreakpointProperties.

Local Open Scope js_scope.

(** With a list of responsive breakpoints of finite width that is not empty,
    the visible-item count at a finite width is the [items] of a breakpoint of
    the list: of the widest one that is not wider than the container, or, when
    every breakpoint is wider than the container, of the narrowest one.  The
    [breakpoints] table plays no part. *)
Theorem responsive_breakpoint_choice (w : R) (b : option Breakpoints)
    (rbs : list Responsive.Breakpoint) :
  rbs <> [] -> Forall finiteWidth rbs ->
  exists bp : Responsive.Breakpoint,
    In bp rbs /\
    getVisibleItemsEnhanced (Fin w) b (Some rbs) = Responsive.items bp /\
    ((JS.le (Responsive.width bp) (Fin w) /\
      forall bp', In bp' rbs -> JS.le (Responsive.width bp') (Fin w) ->
                  JS.le (Responsive.width bp') (Responsive.width bp))
     \/
     ((forall bp', In bp' rbs -> ~ JS.le (Responsive.width bp') (Fin w)) /\
      forall bp', In bp' rbs -> JS.le (Responsive.width bp) (Responsive.width bp'))).
Proof.
  intros Hne Hfin.
  set (sorted := Op.sort byWidthDescending rbs).
  assert (Hin : forall x, In x sorted <-> In x rbs) by (intros x; apply In_sort).
  assert (Hfs : Forall finiteWidth sorted).
  { rewrite Forall_forall in *. intros x Hx. apply Hfin, Hin, Hx. }
  assert (Hs : StronglySorted widerOrEqual sorted) by (apply sort_sorted, Hfin).
  assert (Hns : sorted <> []).
  { destruct rbs as [| x r]; [contradiction |].
    intros E. assert (Hx : In x sorted) by (apply Hin; left; reflexivity).
    rewrite E in Hx. exact Hx. }
  assert (E : getVisibleItemsEnhanced (Fin w) b (Some rbs)
              = match find (fun bp => Op.geb (Fin w) (Responsive.width bp)) sorted with
                | Some m => Responsive.items m
                | None =>
                    Op.orElse
                      (option_map Responsive.items
                         (nth_error sorted (List.length sorted - 1)))
                      (num 1)
                end).
  { unfold getVisibleItemsEnhanced. destruct rbs; [contradiction | reflexivity]. }
  rewrite E.
  destruct (find (fun bp => Op.geb (Fin w) (Responsive.width bp)) sorted)
    as [m |] eqn:Ef.
  - destruct (find_in_sorted w sorted m Hfs Hs Ef) as (Hm & Hle & Hmax).
    exists m. split; [apply Hin, Hm |]. split; [reflexivity |].
    left. split; [exact Hle |]. intros bp' Hb. apply Hmax, Hin, Hb.
  - destruct (last_of_sorted sorted Hns Hfs Hs) as (m & Hn & Hm & Hmin).
    exists m. rewrite Hn. split; [apply Hin, Hm |]. split; [reflexivity |].
    right. split.
    + intros bp' Hb. apply (find_none_sorted w sorted Hfs Ef), Hin, Hb.
    + intros bp' Hb. apply Hmin, Hin, Hb.
Qed.

(** Three breakpoints given out of order, at a width of 800. *)
Lemma responsive_breakpoint_choice_witness :
  exists bp : Responsive.Breakpoint,
    In bp [ {| Responsive.width := num 768; Responsive.items := num 3 |};
            {| Responsive.width := num 1200; Responsive.items := num 5 |};
            {| Responsive.width := num 0; Responsive.items := num 1 |} ] /\
    getVisibleItemsEnhanced (Fin 800) None
      (Some [ {| Responsive.width := num 768; Responsive.items := num 3 |};
              {| Responsive.width := num 1200; Responsive.items := num 5 |};
              {| Responsive.width := num 0; Responsive.items := num 1 |} ])
    = Responsive.items bp.
Proof.
  destruct (responsive_breakpoint_choice 800 None
              [ {| Responsive.width := num 768; Responsive.items := num 3 |};
                {| Responsive.width := num 1200; Responsive.items := num 5 |};
                {| Responsive.width := num 0; Responsive.items := num 1 |} ])
    as (bp & Hin & E & _).
  - discriminate.
  - repeat constructor; eexists; reflexivity.
  - exists bp. split; assumption.
Defined.

(** The table of the width tiers. *)
Lemma tiers_table (r : R) (b : option Breakpoints)
    (rbs : option (list Responsive.Breakpoint)) :
  rbs = None \/ rbs = Some [] ->
  let result := getVisibleItemsEnhanced (Fin r) b rbs in
  ((1280 <= r)%R -> result = valueOr (fieldOf large b) (num 4)) /\
  ((1024 <= r < 1280)%R -> result = valueOr (fieldOf large b) (num 3)) /\
  ((768 <= r < 1024)%R -> result = valueOr (fieldOf medium b) (num 3)) /\
  ((640 <= r < 768)%R -> result = valueOr (fieldOf small b) (num 2)) /\
  ((r < 640)%R -> result = valueOr (fieldOf small b) (num 1)).
Proof.
  intros Hr result.
  assert (G : forall t : Z, Op.geb (Fin r) (num t) = if Rle_dec (IZR t) r then true else false).
  { intros t. unfold num, JS.of_Z.
    destruct (Rle_dec (IZR t) r) as [H | H].
    - apply geb_Fin. exact H.
    - destruct (Op.geb (Fin r) (Fin (IZR t))) eqn:E; [| reflexivity].
      apply geb_Fin in E. contradiction. }
  assert (E : result =
    let defaultLarge := if Op.geb (Fin r) (num 1280) then num 4 else num 3 in
    let defaultMedium := if Op.geb (Fin r) (num 768) then num 3 else num 2 in
    let defaultSmall := if Op.geb (Fin r) (num 640) then num 2 else num 1 in
    if Op.geb (Fin r) (num 1280)
    then Op.orElse (spread defaultLarge (fieldOf large b)) (num 4)
    else if Op.geb (Fin r) (num 1024)
    then Op.orElse (spread defaultLarge (fieldOf large b)) (num 3)
    else if Op.geb (Fin r) (num 768)
    then Op.orElse (spread defaultMedium (fieldOf medium b)) (num 3)
    else if Op.geb (Fin r) (num 640)
    then Op.orElse (spread defaultSmall (fieldOf small b)) (num 2)
    else Op.orElse (spread defaultSmall (fieldOf small b)) (num 1)).
  { unfold result, getVisibleItemsEnhanced. destruct Hr as [-> | ->]; reflexivity. }
  rewrite E. cbv zeta. rewrite !G. clear E G.
  repeat split; intros H;
    destruct (Rle_dec 1280 r); try lra;
    destruct (Rle_dec 1024 r); try lra;
    destruct (Rle_dec 768 r); try lra;
    destruct (Rle_dec 640 r); try lra;
    match goal with
    | |- context [fieldOf ?f b] => destruct (fieldOf f b); reflexivity
    end.
Qed.

(** Without responsive breakpoints, at a finite width: [large] decides from
    1024 on, [medium] from 768 to 1024 and [small] below 768; the thresholds
    1280 and 640 only choose the value used when the field gives no number
    (4 or 3 for [large], 2 or 1 for [small]).  A field given as [undefined]
    counts as a field left out. *)
Theorem breakpoint_tiers (r : R) (b : option Breakpoints)
    (rbs : option (list Responsive.Breakpoint)) :
  rbs = None \/ rbs = Some [] ->
  let result := getVisibleItemsEnhanced (Fin r) b rbs in
  ((1280 <= r)%R -> result = valueOr (fieldOf large b) (num 4)) /\
  ((1024 <= r < 1280)%R -> result = valueOr (fieldOf large b) (num 3)) /\
  ((768 <= r < 1024)%R -> result = valueOr (fieldOf medium b) (num 3)) /\
  ((640 <= r < 768)%R -> result = valueOr (fieldOf small b) (num 2)) /\
  ((r < 640)%R -> result = valueOr (fieldOf small b) (num 1)).
Proof. exact (tiers_table r b rbs). Qed.

Lemma breakpoint_tiers_witness :
  getVisibleItemsEnhanced (Fin 700)
    (Some {| large := Value (num 4); medium := Value (num 3); small := Value (num 1) |})
    None = num 1.
Proof.
  destruct (breakpoint_tiers 700
              (Some {| large := Value (num 4); medium := Value (num 3);
                       small := Value (num 1) |}) None) as (_ & _ & _ & H & _).
  - left. reflexivity.
  - apply H. lra.
Defined.

(** With no breakpoint setting at all the count is 1, 2, 3, 3 or 4, and it
    does not go down when the container gets wider. *)
Theorem default_tiers_monotone (r1 r2 : R) :
  (r1 <= r2)%R ->
  exists n1 n2 : R,
    getVisibleItemsEnhanced (Fin r1) None None = Fin n1 /\
    getVisibleItemsEnhanced (Fin r2) None None = Fin n2 /\
    (1 <= n1 <= n2)%R /\ (n2 <= 4)%R.
Proof.
  intros H.
  destruct (tiers_table r1 None None (or_introl eq_refl))
    as (A1 & A2 & A3 & A4 & A5).
  destruct (tiers_table r2 None None (or_introl eq_refl))
    as (B1 & B2 & B3 & B4 & B5).
  cbv zeta in *. cbn [fieldOf valueOr] in *. unfold num, JS.of_Z in *.
  destruct (Rle_dec 1280 r1); [| destruct (Rle_dec 1024 r1);
    [| destruct (Rle_dec 768 r1); [| destruct (Rle_dec 640 r1)]]];
  (destruct (Rle_dec 1280 r2); [| destruct (Rle_dec 1024 r2);
    [| destruct (Rle_dec 768 r2); [| destruct (Rle_dec 640 r2)]]]);
  try lra;
  do 2 eexists;
  (split; [solve [apply A1; lra | apply A2; lra | apply A3; lra
                  | apply A4; lra | apply A5; lra] |]);
  (split; [solve [apply B1; lra | apply B2; lra | apply B3; lra
                  | apply B4; lra | apply B5; lra] |]);
  lra.
Qed.

Lemma default_tiers_monotone_witness :
  exists n1 n2 : R,
    getVisibleItemsEnhanced (Fin 700) None None = Fin n1 /\
    getVisibleItemsEnhanced (Fin 1100) None None = Fin n2 /\
    (1 <= n1 <= n2)%R /\ (n2 <= 4)%R.
Proof. apply (default_tiers_monotone 700 1100). lra. Defined.

End BreakpointProperties.

(* ================================================================== *)
(** ** Lookup by id, arrows and the range of the index *)
(* ================================================================== *)

Section HandleProperties.

Variable p : SliderProps.

Local Open Scope js_scope.

Lemma findIndex_spec {A : Type} (f : A -> bool) (l : list A) :
  match Op.findIndex f l with
  | Some k =>
      exists x, nth_error l k = Some x /\ f x = true /\
        forall j y, (j < k)%nat -> nth_error l j = Some y -> f y = false
  | None => forall x, In x l -> f x = false
  end.
Proof.
  induction l as [| x l IH]; cbn [Op.findIndex].
  - intros x [].
  - destruct (f x) eqn:Ex.
    + exists x. split; [reflexivity |]. split; [exact Ex |]. intros j y Hj. lia.
    + destruct (Op.findIndex f l) as [k |]; cbn [option_map].
      * destruct IH as (z & Hz & Hfz & Hbefore).
        exists z. split; [exact Hz |]. split; [exact Hfz |].
        intros [| j] y Hj Hy.
        -- cbn in Hy. injection Hy as <-. exact Ex.
        -- cbn in Hy. apply (Hbefore j y); [lia | exact Hy].
      * intros y [<- | Hy]; [exact Ex | apply IH, Hy].
Qed.

(** [scrollToItem(id)] changes nothing when no item has the id; otherwise it
    is [scrollToIndex(k)] for the first position [k] whose item has the id,
    and [k] becomes the index, whether or not [k] is beyond
    [items.length - visibleItems]. *)
Theorem scrollToItem_first_match (itemId : ItemId) (now : R) (st : Slider) :
  ((forall item, In item (items p) -> idEq (id item) itemId = false) /\
   scrollToItem p itemId now st = st)
  \/
  (exists (k : nat) (item : Item),
     nth_error (items p) k = Some item /\ idEq (id item) itemId = true /\
     (forall j other, (j < k)%nat -> nth_error (items p) j = Some other ->
                      idEq (id other) itemId = false) /\
     scrollToItem p itemId now st = scrollToIndex p (JS.of_nat k) now st /\
     getCurrentIndex (scrollToItem p itemId now st) = JS.of_nat k).
Proof.
  pose proof (findIndex_spec (fun item => idEq (id item) itemId) (items p)) as H.
  unfold scrollToItem.
  destruct (Op.findIndex (fun item => idEq (id item) itemId) (items p)) as [k |].
  - right. destruct H as (item & Hn & Hf & Hb).
    exists k, item. repeat split; try assumption.
    unfold getCurrentIndex. rewrite notify_currentIndex. reflexivity.
  - left. split; [exact H | reflexivity].
Qed.

(** No item is found under the id [NaN], not even one whose id is [NaN]. *)
Example scrollToItem_NaN (now : R) (st : Slider) :
  scrollToItem p (IdNumber NaN) now st = st.
Proof.
  pose proof (findIndex_spec (fun item => idEq (id item) (IdNumber NaN)) (items p)) as H.
  unfold scrollToItem.
  destruct (Op.findIndex (fun item => idEq (id item) (IdNumber NaN)) (items p)).
  - destruct H as (item & _ & Hf & _). exfalso.
    destruct (id item) as [s | [ | | | r]]; discriminate Hf.
  - reflexivity.
Qed.

(** What the index and the visible-item count are after a navigation. *)
Lemma next_index (now : R) (st : Slider) (c v : R) :
  currentIndex st = Fin c -> visibleItems st = Fin v ->
  currentIndex (next p now st)
    = Fin (Rmin (IZR (Z.of_nat (List.length (items p))) - v) (c + 1))
  /\ visibleItems (next p now st) = Fin v.
Proof.
  intros Hc Hv. unfold next. rewrite handleNext_goTo.
  destruct (goTo_layout p (JS.min (itemsLength p - visibleItems st)
                             (currentIndex st + num 1)) now st) as (_ & L & _).
  rewrite goTo_currentIndex, L, Hc, Hv. unfold itemsLength. fin_simpl.
  split; reflexivity.
Qed.

Lemma previous_index (now : R) (st : Slider) (c v : R) :
  currentIndex st = Fin c -> visibleItems st = Fin v ->
  currentIndex (previous p now st) = Fin (Rmax 0 (c - 1))
  /\ visibleItems (previous p now st) = Fin v.
Proof.
  intros Hc Hv. unfold previous. rewrite handlePrevious_goTo.
  destruct (goTo_layout p (JS.max (num 0) (currentIndex st - num 1)) now st)
    as (_ & L & _).
  rewrite goTo_currentIndex, L, Hc, Hv. fin_simpl. split; reflexivity.
Qed.

(** For a finite index within its range, an arrow is disabled exactly when
    its navigation would keep the index; and when the arrows are rendered at
    all, they are not both disabled. *)
Theorem arrows_match_navigation (now : R) (st : Slider) (c v : R) :
  currentIndex st = Fin c -> visibleItems st = Fin v ->
  (0 <= c <= IZR (Z.of_nat (List.length (items p))) - v)%R ->
  (leftArrowDisabled st = true <->
     getCurrentIndex (previous p now st) = currentIndex st) /\
  (rightArrowDisabled p st = true <->
     getCurrentIndex (next p now st) = currentIndex st) /\
  (forall showArrows, arrowsRendered p showArrows st = true ->
     ~ (leftArrowDisabled st = true /\ rightArrowDisabled p st = true)).
Proof.
  intros Hc Hv Hr. unfold getCurrentIndex.
  destruct (next_index now st c v Hc Hv) as [En _].
  destruct (previous_index now st c v Hc Hv) as [Ep _].
  rewrite En, Ep. unfold leftArrowDisabled, rightArrowDisabled, arrowsRendered.
  unfold itemsLength. rewrite Hc, Hv. fin_simpl. unfold Op.strictEq, JS.gtb, JS.ltb.
  set (len := IZR (Z.of_nat (List.length (items p)))) in *. clearbody len.
  unfold Rmin, Rmax.
  repeat split.
  - destruct (Req_dec_T c 0); [| discriminate].
    intros _. f_equal. destruct (Rle_dec 0 (c - 1)); lra.
  - intros E. injection E as E. destruct (Req_dec_T c 0); [reflexivity |].
    destruct (Rle_dec 0 (c - 1)); lra.
  - destruct (Req_dec_T c (len + - v)); [| discriminate].
    intros _. f_equal. destruct (Rle_dec (len - v) (c + 1)); lra.
  - intros E. injection E as E. destruct (Req_dec_T c (len + - v)); [reflexivity |].
    destruct (Rle_dec (len - v) (c + 1)); lra.
  - intros showArrows Hs [Hl Hrt].
    destruct showArrows; [| discriminate]. cbn [andb] in Hs.
    destruct (Rlt_dec v len); [| discriminate].
    destruct (Req_dec_T c 0); [| discriminate].
    destruct (Req_dec_T c (len + - v)); [| discriminate]. lra.
Qed.

End HandleProperties.

(** The example slider at index 0: the left arrow is disabled, and
    [previous()] keeps the index. *)
Lemma arrows_match_navigation_witness :
  leftArrowDisabled (exampleState (num 0) (num 0)) = true <->
  getCurrentIndex (previous exampleProps 0 (exampleState (num 0) (num 0)))
    = currentIndex (exampleState (num 0) (num 0)).
Proof.
  destruct (arrows_match_navigation exampleProps 0 (exampleState (num 0) (num 0)) 0 4)
    as (H & _); try reflexivity.
  - cbn. lra.
  - exact H.
Defined.

(* ================================================================== *)
(** ** The index stays in range *)
(* ================================================================== *)

Section IndexRange.

Variable p : SliderProps.

Local Open Scope js_scope.

(** [next()] then [previous()], and [previous()] then [next()], on an index
    with room on that side. *)
Lemma next_previous_index (t1 t2 : R) (st : Slider) (c v : R) :
  currentIndex st = Fin c -> visibleItems st = Fin v ->
  let len := IZR (Z.of_nat (List.length (items p))) in
  ((0 <= c)%R -> (c + 1 <= len - v)%R ->
     getCurrentIndex (previous p t2 (next p t1 st)) = Fin c) /\
  ((1 <= c <= len - v)%R ->
     getCurrentIndex (next p t2 (previous p t1 st)) = Fin c).
Proof.
  intros Hc Hv len. unfold getCurrentIndex.
  destruct (next_index p t1 st c v Hc Hv) as [En Vn].
  destruct (previous_index p t1 st c v Hc Hv) as [Ep Vp].
  fold len in En. split.
  - intros H0 H1.
    destruct (previous_index p t2 _ _ v En Vn) as [E _]. rewrite E. f_equal.
    clearbody len. unfold Rmin, Rmax.
    destruct (Rle_dec (len - v) (c + 1)); destruct (Rle_dec 0 _); lra.
  - intros H1.
    destruct (next_index p t2 _ _ v Ep Vp) as [E _]. rewrite E. fold len. f_equal.
    clearbody len. unfold Rmin, Rmax.
    destruct (Rle_dec 0 (c - 1)); destruct (Rle_dec (len - v) _); lra.
Qed.

(** [next()] and [previous()] undo each other: from a finite index [c],
    [previous()] after [next()] leads back to [c] when
    [0 <= c] and [c + 1 <= items.length - visibleItems], and [next()] after
    [previous()] leads back to [c] when [1 <= c <= items.length - visibleItems]. *)
Theorem next_previous_round_trip (t1 t2 : R) (st : Slider) (c v : R) :
  currentIndex st = Fin c -> visibleItems st = Fin v ->
  let len := IZR (Z.of_nat (List.length (items p))) in
  ((0 <= c)%R -> (c + 1 <= len - v)%R ->
     getCurrentIndex (previous p t2 (next p t1 st)) = Fin c) /\
  ((1 <= c <= len - v)%R ->
     getCurrentIndex (next p t2 (previous p t1 st)) = Fin c).
Proof. exact (next_previous_index t1 t2 st c v). Qed.

Lemma next_in_range (now : R) (st : Slider) :
  indexInRange p st -> indexInRange p (next p now st).
Proof.
  intros (c & v & Hc & Hv & Hr).
  destruct (next_index p now st c v Hc Hv) as [E V].
  exists (Rmin (IZR (Z.of_nat (List.length (items p))) - v) (c + 1)), v.
  split; [exact E |]. split; [exact V |].
  split; [apply Rmin_glb; lra | apply Rmin_l].
Qed.

Lemma previous_in_range (now : R) (st : Slider) :
  indexInRange p st -> indexInRange p (previous p now st).
Proof.
  intros (c & v & Hc & Hv & Hr).
  destruct (previous_index p now st c v Hc Hv) as [E V].
  exists (Rmax 0 (c - 1)), v.
  split; [exact E |]. split; [exact V |].
  split; [apply Rmax_l | apply Rmax_lub; lra].
Qed.

(** A state with the same index and visible-item count is in range too. *)
Lemma indexInRange_same (st st' : Slider) :
  currentIndex st' = currentIndex st -> visibleItems st' = visibleItems st ->
  indexInRange p st -> indexInRange p st'.
Proof.
  intros Ei Ev (c & v & Hc & Hv & Hr). exists c, v.
  rewrite Ei, Ev. repeat split; assumption || lra.
Qed.

Lemma notify_in_range (b : bool) (c : Callback) (st : Slider) :
  indexInRange p st -> indexInRange p (notify b c st).
Proof. unfold notify. destruct b; intros H; exact H. Qed.

Lemma handleDragEnd_in_range (now : R) (st : Slider) :
  indexInRange p st -> indexInRange p (handleDragEnd p now st).
Proof.
  intros H. unfold handleDragEnd.
  destruct (negb (isDragging st) || negb (enableDrag (config p))); [exact H |].
  apply notify_in_range.
  assert (H1 : indexInRange p (setIsDragging false st))
    by (apply (indexInRange_same st); [reflexivity | reflexivity | exact H]).
  destruct (JS.abs _ >? _); [destruct (_ >? _) |].
  - apply (previous_in_range now _ H1).
  - apply (next_in_range now _ H1).
  - apply (indexInRange_same st); [reflexivity | reflexivity | exact H].
Qed.

Lemma dispatch_in_range (e : Event) (st : Slider) :
  navigationOnly e -> indexInRange p st -> indexInRange p (dispatch p e st).
Proof.
  intros He H. destruct e; cbn [dispatch navigationOnly] in *.
  - apply next_in_range, H.
  - apply previous_in_range, H.
  - contradiction.
  - unfold handleDragStart. destruct (negb (enableDrag (config p))); [exact H |].
    apply notify_in_range.
    apply (indexInRange_same st); [reflexivity | reflexivity | exact H].
  - unfold handleDragMove.
    destruct (negb (isDragging st) || negb (enableDrag (config p))); [exact H |].
    apply (indexInRange_same st); [reflexivity | reflexivity | exact H].
  - apply handleDragEnd_in_range, H.
  - pose proof (runFrame_untouched t st) as U. unfold untouched in U.
    apply (indexInRange_same st); [congruence | congruence | exact H].
Qed.

Lemma run_in_range (es : list Event) (st : Slider) :
  Forall navigationOnly es -> indexInRange p st -> indexInRange p (run p es st).
Proof.
  unfold run. revert st. induction es as [| e es IH]; intros st He H; cbn [fold_left].
  - exact H.
  - inversion He; subst. apply IH; [assumption |]. apply dispatch_in_range; assumption.
Qed.

Lemma notify_visibleItems (b : bool) (c : Callback) (st : Slider) :
  visibleItems (notify b c st) = visibleItems st.
Proof. unfold notify. destruct b; reflexivity. Qed.

Lemma goTo_visibleItems (index : number) (now : R) (st : Slider) :
  visibleItems (goTo p index now st) = visibleItems st.
Proof. apply goTo_layout. Qed.

(** No event changes the visible-item count. *)
Lemma dispatch_visibleItems (e : Event) (st : Slider) :
  visibleItems (dispatch p e st) = visibleItems st.
Proof.
  destruct e; cbn [dispatch]; unfold next, previous.
  - rewrite handleNext_goTo. apply goTo_visibleItems.
  - rewrite handlePrevious_goTo. apply goTo_visibleItems.
  - rewrite scrollToIndex_goTo. apply goTo_visibleItems.
  - unfold handleDragStart. destruct (negb (enableDrag (config p))); [reflexivity |].
    rewrite notify_visibleItems. reflexivity.
  - unfold handleDragMove.
    destruct (negb (isDragging st) || negb (enableDrag (config p))); reflexivity.
  - unfold handleDragEnd.
    destruct (negb (isDragging st) || negb (enableDrag (config p))); [reflexivity |].
    rewrite notify_visibleItems.
    destruct (JS.abs _ >? _); [destruct (_ >? _) |].
    + rewrite handlePrevious_goTo, goTo_visibleItems. reflexivity.
    + rewrite handleNext_goTo, goTo_visibleItems. reflexivity.
    + reflexivity.
  - pose proof (runFrame_untouched t st) as U. unfold untouched in U. congruence.
Qed.

Lemma run_visibleItems (es : list Event) (st : Slider) :
  visibleItems (run p es st) = visibleItems st.
Proof.
  unfold run. revert st. induction es as [| e es IH]; intros st; cbn [fold_left].
  - reflexivity.
  - rewrite IH. apply dispatch_visibleItems.
Qed.

(** Whatever sequence of [next()], [previous()], drag gestures and frames a
    slider goes through, the visible-item count [v] is unchanged and an index
    that is a finite number within [0, items.length - v] stays a finite
    number within that same interval.  ([scrollToIndex] and [scrollToItem]
    store any index.) *)
Theorem index_stays_in_range (es : list Event) (st : Slider) (c0 v : R) :
  Forall navigationOnly es ->
  currentIndex st = Fin c0 -> visibleItems st = Fin v ->
  (0 <= c0 <= IZR (Z.of_nat (List.length (items p))) - v)%R ->
  visibleItems (run p es st) = Fin v /\
  exists c : R,
    getCurrentIndex (run p es st) = Fin c /\
    (0 <= c <= IZR (Z.of_nat (List.length (items p))) - v)%R.
Proof.
  intros He Hc Hv Hr.
  assert (Ev : visibleItems (run p es st) = Fin v)
    by (rewrite run_visibleItems; exact Hv).
  split; [exact Ev |].
  assert (H : indexInRange p st) by (exists c0, v; repeat split; assumption || lra).
  destruct (run_in_range es st He H) as (c & v' & Ec & Ev' & Hr').
  assert (E : v' = v) by congruence. subst v'.
  exists c. split; [exact Ec | exact Hr'].
Qed.

End IndexRange.

Lemma next_previous_round_trip_witness :
  getCurrentIndex (previous exampleProps 1 (next exampleProps 0
                     (exampleState (num 2) (num (-216))))) = Fin 2.
Proof.
  destruct (next_previous_round_trip exampleProps 0 1
              (exampleState (num 2) (num (-216))) 2 4) as (H & _);
    try reflexivity.
  apply H; cbn; lra.
Defined.

(** A drag to the left, a frame, two [next()] and a [previous()] on the
    example slider at index 5. *)
Lemma index_stays_in_range_witness :
  visibleItems
    (run exampleProps
       [EvDragStart (num 200); EvDragMove (num 100); EvDragEnd 0; EvFrame 16;
        EvNext 20; EvNext 40; EvPrevious 60]
       (exampleState (num 5) (num (-540)))) = Fin 4 /\
  exists c : R,
    getCurrentIndex
      (run exampleProps
         [EvDragStart (num 200); EvDragMove (num 100); EvDragEnd 0; EvFrame 16;
          EvNext 20; EvNext 40; EvPrevious 60]
         (exampleState (num 5) (num (-540)))) = Fin c /\
    (0 <= c <= IZR (Z.of_nat (List.length (items exampleProps))) - 4)%R.
Proof.
  apply (index_stays_in_range exampleProps _ _ 5%R 4%R).
  - repeat constructor.
  - reflexivity.
  - reflexivity.
  - cbn. lra.
Defined.

(* ================================================================== *)
(** ** Dragging and successive animations *)
(* ================================================================== *)

Section DragAndAnimation.

Variable p : SliderProps.

Local Open Scope js_scope.

Lemma runFrames_idle (ts : list R) (st : Slider) :
  frames st = [] -> runFrames ts st = st.
Proof.
  intros H. unfold runFrames. induction ts as [| t ts IH]; cbn [fold_left].
  - reflexivity.
  - rewrite runFrame_idle by exact H. exact IH.
Qed.

(** What a drag move does to the offset, on finite values. *)
Lemma handleDragMove_offset (st : Slider) (c1 x c0 w g pk v : R) :
  isDragging st = true -> enableDrag (config p) = true ->
  sliderOffset st = Fin x -> dragCurrentRef st = Fin c0 ->
  getItemWidth p st = Fin w -> gap (config p) = Fin g ->
  peekAdjustment p st = Fin pk -> visibleItems st = Fin v ->
  let len := IZR (Z.of_nat (List.length (items p))) in
  handleDragMove p (Fin c1) st
  = setSliderOffset
      (Fin (Rmax (- ((len - v) * (w + g)) + pk) (Rmin pk (x + (c1 - c0)))))
      (setDragRefs (dragStartRef st) (Fin c1) st).
Proof.
  intros Hd He Hx Hc0 Hw Hg Hpk Hv len. unfold handleDragMove.
  rewrite Hd, He, Hw, Hg, Hpk, Hv, Hc0. cbn [negb orb].
  cbn [sliderOffset setDragRefs]. rewrite Hx.
  unfold itemsLength. fin_simpl. reflexivity.
Qed.

(** While a drag is on, a move adds the pointer movement to the offset and
    clamps the sum: the new offset is at least
    [min = -((items.length - visibleItems) * (itemWidth + gap)) + peek], it is
    at most [max = peek] when [min <= max], it is the sum itself when the sum
    lies within, and it is [min] when there are fewer items than visible
    items ([max < min]).  The index is not touched. *)
Theorem drag_move_clamped (st : Slider) (c1 x c0 w g pk v : R) :
  isDragging st = true -> enableDrag (config p) = true ->
  sliderOffset st = Fin x -> dragCurrentRef st = Fin c0 ->
  getItemWidth p st = Fin w -> gap (config p) = Fin g ->
  peekAdjustment p st = Fin pk -> visibleItems st = Fin v ->
  let len := IZR (Z.of_nat (List.length (items p))) in
  let lo := (- ((len - v) * (w + g)) + pk)%R in
  let st' := handleDragMove p (Fin c1) st in
  exists o : R,
    sliderOffset st' = Fin o /\
    (lo <= o)%R /\ ((lo <= pk)%R -> (o <= pk)%R) /\
    ((lo <= x + (c1 - c0) <= pk)%R -> o = (x + (c1 - c0))%R) /\
    ((pk < lo)%R -> o = lo) /\
    dragCurrentRef st' = Fin c1 /\ currentIndex st' = currentIndex st.
Proof.
  intros Hd He Hx Hc0 Hw Hg Hpk Hv len lo st'.
  pose proof (handleDragMove_offset st c1 x c0 w g pk v Hd He Hx Hc0 Hw Hg Hpk Hv) as E.
  cbv zeta in E. fold len in E. fold lo in E. fold st' in E.
  exists (Rmax lo (Rmin pk (x + (c1 - c0)))). rewrite E.
  clearbody lo len. clear E st'.
  split; [reflexivity |]. unfold Rmax, Rmin.
  repeat split;
    try (intros; destruct (Rle_dec pk (x + (c1 - c0)));
         destruct (Rle_dec lo _); lra).
Qed.

(** A drag start stops the animation: whatever frames follow, the offset
    stays where it was and nothing is pending. *)
Theorem drag_start_stops_animation (x : number) (st : Slider) (ts : list R) :
  enableDrag (config p) = true -> single_animation st ->
  let st' := runFrames ts (handleDragStart p x st) in
  sliderOffset st' = sliderOffset st /\ frames st' = [] /\ isDragging st' = true.
Proof.
  intros He H st'.
  pose proof (handleDragStart_cancels p x st He H) as Hc.
  unfold st'. rewrite (runFrames_idle ts _ Hc).
  split; [| split; [exact Hc |]];
    unfold handleDragStart, notify; rewrite He; cbn [negb];
    destruct (onDragStart p); reflexivity.
Qed.

Lemma runFrames_offset_finite (a : Animation) (s dist k d m : R) (ts : list R)
    (st : Slider) :
  finiteAnimation a s dist k d m ->
  tracks a s dist k d m st ->
  finiteNumber (sliderOffset st) ->
  finiteNumber (sliderOffset (runFrames ts st)).
Proof.
  intros Hfin. revert st. unfold runFrames.
  induction ts as [| t ts IH]; intros st Htr Ho; cbn [fold_left]; [exact Ho |].
  apply IH.
  - apply runFrame_tracks; assumption.
  - destruct Htr as [Han | [Hf _]].
    + destruct (runFrame_animating a s dist k d m t st Hfin Han)
        as [(_ & E & _) | (_ & E & _)]; rewrite E; eexists; reflexivity.
    + rewrite runFrame_idle by exact Hf. exact Ho.
Qed.

(** Two animations in a row, the second one run to its end. *)
Lemma second_animation_settles (st : Slider) (s tg1 tg2 k d m now1 now2 : R)
    (ts1 ts2 : list R) (t : R) :
  single_animation st ->
  sliderOffset st = Fin s ->
  springConfig (config p) = {| stiffness := Fin k; damping := Fin d; mass := Fin m |} ->
  m <> 0%R ->
  (now2 + 300 <= t)%R ->
  let mid := runFrames ts1 (animateToOffset p (Fin tg1) false now1 st) in
  let final := runFrames (ts2 ++ [t]) (animateToOffset p (Fin tg2) false now2 mid) in
  exists o : R,
    sliderOffset mid = Fin o /\
    sliderOffset final = Fin (o + (tg2 - o) * easeR k d m 1) /\
    frames final = [].
Proof.
  intros H Hs Hsp Hm Ht mid final.
  pose proof (animationTo_finite p st s tg1 k d m now1 Hs Hsp Hm) as Hfin.
  pose proof (animateToOffset_tracks p false DragEnded st s tg1 k d m now1 H) as Htr.
  cbn [notify] in Htr.
  assert (Ho : finiteNumber (sliderOffset mid)).
  { apply (runFrames_offset_finite _ _ _ _ _ _ ts1 _ Hfin Htr).
    exists s. exact Hs. }
  destruct Ho as [o Ho]. exists o. split; [exact Ho |].
  assert (Hmid : single_animation mid)
    by (apply runFrames_single, animateToOffset_single, H).
  destruct (animateToOffset_settles p false DragEnded mid o tg2 k d m now2 ts2 t
              Hmid Ho Hsp Hm Ht) as [Hf Hfinal].
  cbn [notify] in Hf, Hfinal. split; [exact Hfinal | exact Hf].
Qed.

(** The last animation wins: when a second [animateToOffset] follows a first
    one, after any frames, and runs to its end, the first target plays no
    part beyond the offset [o] reached when the second call is made; the
    final offset is [o + (target2 - o) * (1 - e^(-stiffness/mass)) * (1 - e^(-damping))]
    and nothing is pending. *)
Theorem last_animation_wins (st : Slider) (s tg1 tg2 k d m now1 now2 : R)
    (ts1 ts2 : list R) (t : R) :
  single_animation st ->
  sliderOffset st = Fin s ->
  springConfig (config p) = {| stiffness := Fin k; damping := Fin d; mass := Fin m |} ->
  m <> 0%R ->
  (now2 + 300 <= t)%R ->
  let mid := runFrames ts1 (animateToOffset p (Fin tg1) false now1 st) in
  let final := runFrames (ts2 ++ [t]) (animateToOffset p (Fin tg2) false now2 mid) in
  exists o : R,
    sliderOffset mid = Fin o /\
    sliderOffset final
      = Fin (o + (tg2 - o)
                 * ((1 - Rtrigo_def.exp (- k * 1 / m)) * (1 - Rtrigo_def.exp (- d * 1)))) /\
    frames final = [].
Proof. exact (second_animation_settles st s tg1 tg2 k d m now1 now2 ts1 ts2 t). Qed.

End DragAndAnimation.

(** A drag of the example slider at index 2 from x = 100 to x = 160. *)
Lemma drag_move_clamped_witness :
  exists o : R,
    sliderOffset (handleDragMove exampleProps (Fin 160)
                    (handleDragStart exampleProps (num 100)
                       (exampleState (num 2) (num (-216))))) = Fin o /\
    (- ((10 - 4) * (100 + 8)) + 0 <= o)%R.
Proof.
  destruct (drag_move_clamped exampleProps
              (handleDragStart exampleProps (num 100) (exampleState (num 2) (num (-216))))
              160 (-216) 100 100 8 0 4) as (o & Ho & Hlo & _);
    try reflexivity.
  - apply getItemWidth_measured. repeat split.
  - exists o. split; [exact Ho |]. cbn in Hlo. exact Hlo.
Defined.

Lemma drag_start_stops_animation_witness :
  sliderOffset (runFrames [200; 300]%R (handleDragStart exampleProps (num 100) inFlight))
  = sliderOffset inFlight.
Proof.
  destruct (drag_start_stops_animation exampleProps (num 100) inFlight [200; 300]%R)
    as (H & _).
  - reflexivity.
  - right. exists inFlightAnimation. exact inFlight_animating.
  - exact H.
Defined.

Lemma last_animation_wins_witness :
  exists o : R,
    sliderOffset
      (runFrames [150]%R
         (animateToOffset exampleProps (Fin (-108)) false 0
            (exampleState (num 0) (num 0)))) = Fin o.
Proof.
  destruct (last_animation_wins exampleProps (exampleState (num 0) (num 0))
              0 (-108) (-216) 150 25 1 0 200 [150]%R [] 600) as (o & Ho & _);
    try reflexivity; try lra.
  - left. reflexivity.
  - exists o. exact Ho.
Defined.

(* ================================================================== *)
(** ** Measurement and card heights *)
(* ================================================================== *)

Section Measurement.

Variable p : SliderProps.

Local Open Scope js_scope.


(** [refresh()] and [updateDimensions()] are measurements: they store the
    width, the visible-item count of that width and a peek width, and touch
    nothing else. *)
Lemma refresh_performs (ls : LayoutSettings) (width : number) (st : Slider) :
  refresh p ls (Some width) st
  = perform p
      (OnMeasure width
         (getVisibleItemsEnhanced width (breakpoints ls) (responsiveBreakpoints ls))
         (calculatePeekWidth p st width)) st.
Proof. reflexivity. Qed.

Lemma updateDimensions_performs (ls : LayoutSettings) (offsetWidth : option number)
    (st : Slider) :
  let width := Op.orElse offsetWidth (num 0) in
  updateDimensions p ls offsetWidth st
  = perform p
      (OnMeasure width
         (getVisibleItemsEnhanced width (breakpoints ls) (responsiveBreakpoints ls))
         (calculatePeekWidth p st width)) st.
Proof. reflexivity. Qed.


End Measurement.

Section CardHeightFacts.

Variable propertyKey : ItemId -> string.

Local Open Scope js_scope.

Lemma getProperty_setProperty_same (key : string) (h : number)
    (o : list (string * number)) :
  getProperty key (setProperty key h o) = Some h.
Proof.
  induction o as [| [k h'] o IH]; cbn [setProperty getProperty].
  - rewrite String.eqb_refl. reflexivity.
  - destruct (String.eqb k key) eqn:E; cbn [getProperty]; rewrite E; [reflexivity | exact IH].
Qed.

Lemma getProperty_setProperty_other (key key' : string) (h : number)
    (o : list (string * number)) :
  key' <> key ->
  getProperty key' (setProperty key h o) = getProperty key' o.
Proof.
  intros Hne. induction o as [| [k h'] o IH]; cbn [setProperty getProperty].
  - destruct (String.eqb key key') eqn:E; [| reflexivity].
    apply String.eqb_eq in E. congruence.
  - destruct (String.eqb k key) eqn:E; cbn [getProperty].
    + apply String.eqb_eq in E. subst k.
      destruct (String.eqb key key') eqn:E'; [| reflexivity].
      apply String.eqb_eq in E'. congruence.
    + rewrite IH. reflexivity.
Qed.

(** Reporting a height stores it under the key of the card, in place of any
    height stored there before, and leaves the heights under every other key
    as they were. *)
Theorem card_height_recorded (cardId : ItemId) (height : number) (hs : Heights) :
  let hs' := handleCardHeightChange propertyKey cardId height hs in
  getProperty (propertyKey cardId) (cardHeights hs') = Some height /\
  forall key, key <> propertyKey cardId ->
    getProperty key (cardHeights hs') = getProperty key (cardHeights hs).
Proof.
  cbv zeta. unfold handleCardHeightChange. cbn [cardHeights]. split.
  - apply getProperty_setProperty_same.
  - intros key Hne. apply getProperty_setProperty_other, Hne.
Qed.

Lemma In_setProperty (key : string) (h : number) (o : list (string * number)) :
  In (key, h) (setProperty key h o).
Proof.
  induction o as [| [k h'] o IH]; cbn [setProperty].
  - left. reflexivity.
  - destruct (String.eqb k key) eqn:E.
    + apply String.eqb_eq in E. subst k. left. reflexivity.
    + right. exact IH.
Qed.

Lemma values_setProperty_finite (key : string) (h : R) (o : list (string * number)) :
  Forall finiteNumber (map snd o) ->
  Forall finiteNumber (map snd (setProperty key (Fin h) o)).
Proof.
  intros H. induction o as [| [k h'] o IH]; cbn [setProperty map snd].
  - constructor; [exists h; reflexivity | constructor].
  - cbn [map snd] in H. inversion H; subst.
    destruct (String.eqb k key); cbn [map snd]; constructor;
      try assumption; try (exists h; reflexivity). apply IH. assumption.
Qed.

(** [Math.max] over finite numbers, started from a finite number. *)
Lemma fold_max_finite (l : list number) (a : R) :
  Forall finiteNumber l ->
  exists m : R,
    fold_left JS.max l (Fin a) = Fin m /\ (a <= m)%R /\
    (forall r, In (Fin r) l -> (r <= m)%R) /\
    (m = a \/ In (Fin m) l).
Proof.
  revert a. induction l as [| x l IH]; intros a H; cbn [fold_left].
  - exists a. split; [reflexivity |]. split; [lra |]. split; [intros r [] | left; reflexivity].
  - inversion H as [| ? ? [rx Ex] Hl]; subst. rewrite max_Fin.
    destruct (IH (Rmax a rx) Hl) as (m & E & Hm & Hall & Hatt).
    exists m. split; [exact E |].
    pose proof (Rmax_l a rx). pose proof (Rmax_r a rx).
    split; [lra |]. split.
    + intros r [Hr | Hr]; [injection Hr as <-; lra | apply Hall, Hr].
    + destruct Hatt as [-> | Hin]; [| right; right; exact Hin].
      unfold Rmax. destruct (Rle_dec a rx); [right; left; reflexivity | left; reflexivity].
Qed.

(** [Math.max(...values)] of finite values, at least one. *)
Lemma mathMax_finite (l : list number) :
  l <> [] -> Forall finiteNumber l ->
  exists m : R,
    Op.mathMax l = Fin m /\ (forall r, In (Fin r) l -> (r <= m)%R) /\ In (Fin m) l.
Proof.
  intros Hne H. destruct l as [| x l]; [contradiction |].
  inversion H as [| ? ? [rx Ex] Hl]; subst.
  unfold Op.mathMax. cbn [fold_left].
  assert (E0 : JS.max NInf (Fin rx) = Fin rx) by reflexivity. rewrite E0.
  destruct (fold_max_finite l rx Hl) as (m & E & Hm & Hall & Hatt).
  exists m. split; [exact E |]. split.
  - intros r [Hr | Hr]; [injection Hr as <-; lra | apply Hall, Hr].
  - destruct Hatt as [-> | Hin]; [left; reflexivity | right; exact Hin].
Qed.

(** The maximum after a report, on finite heights. *)
Lemma maxHeight_after_report (cardId : ItemId) (h : R) (hs : Heights) :
  Forall finiteNumber (map snd (cardHeights hs)) ->
  let hs' := handleCardHeightChange propertyKey cardId (Fin h) hs in
  exists m : R,
    maxHeight hs' = Fin m /\ (h <= m)%R /\
    (forall key r, In (key, Fin r) (cardHeights hs') -> (r <= m)%R) /\
    (exists key, In (key, Fin m) (cardHeights hs')).
Proof.
  intros H. cbv zeta. unfold handleCardHeightChange. cbn [cardHeights maxHeight].
  set (o := setProperty (propertyKey cardId) (Fin h) (cardHeights hs)).
  assert (Hin : In (propertyKey cardId, Fin h) o) by apply In_setProperty.
  assert (Hne : map snd o <> []).
  { destruct o; [destruct Hin | discriminate]. }
  destruct (mathMax_finite (map snd o) Hne (values_setProperty_finite _ _ _ H))
    as (m & E & Hall & Hatt).
  exists m. split; [exact E |].
  assert (Hv : forall key r, In (key, Fin r) o -> (r <= m)%R).
  { intros key r Hk. apply Hall. apply in_map_iff. exists (key, Fin r).
    split; [reflexivity | exact Hk]. }
  split; [apply (Hv _ _ Hin) |]. split; [exact Hv |].
  apply in_map_iff in Hatt. destruct Hatt as ([key x] & Ex & Hk).
  cbn [snd] in Ex. subst x. exists key. exact Hk.
Qed.

(** With finite heights on record, the [maxHeight] stored by a report of a
    finite height is the largest height on record after the report: no
    recorded height is above it, one card has it, and it is at least the
    height just reported. *)
Theorem max_height_is_maximum (cardId : ItemId) (h : R) (hs : Heights) :
  Forall finiteNumber (map snd (cardHeights hs)) ->
  let hs' := handleCardHeightChange propertyKey cardId (Fin h) hs in
  exists m : R,
    maxHeight hs' = Fin m /\ (h <= m)%R /\
    (forall key r, In (key, Fin r) (cardHeights hs') -> (r <= m)%R) /\
    (exists key, In (key, Fin m) (cardHeights hs')).
Proof. exact (maxHeight_after_report cardId h hs). Qed.

End CardHeightFacts.

(** Two cards report 180 and 240, then the second one shrinks to 120. *)
Lemma max_height_is_maximum_witness :
  exists m : R,
    maxHeight
      (handleCardHeightChange (fun _ => "2"%string) (IdNumber (num 2)) (Fin 120)
         {| cardHeights := [("1"%string, Fin 180); ("2"%string, Fin 240)];
            maxHeight := Fin 240 |}) = Fin m /\ (120 <= m)%R.
Proof.
  destruct (max_height_is_maximum (fun _ => "2"%string) (IdNumber (num 2)) 120
              {| cardHeights := [("1"%string, Fin 180); ("2"%string, Fin 240)];
                 maxHeight := Fin 240 |}) as (m & E & Hm & _).
  - repeat constructor; eexists; reflexivity.
  - exists m. split; assumption.
Defined.

(* ================================================================== *)
(** ** The carousel window *)
(* ================================================================== *)

Section CarouselWindow.

Import Carousel.

Local Open Scope Z_scope.

Lemma normalizeIndex_mod (index length : Z) :
  0 < length -> - length <= index ->
  normalizeIndex index length = index mod length.
Proof.
  intros Hl Hi. unfold normalizeIndex.
  destruct (length =? 0) eqn:E; [apply Z.eqb_eq in E; lia |].
  rewrite Z.rem_mod_nonneg by lia.
  rewrite <- (Z.mul_1_l length) at 1. apply Z.mod_add. lia.
Qed.

(** For a length above zero and an index not below [-length],
    [normalizeIndex] is the index counted round the list, a position within
    [0, length). *)
Theorem normalizeIndex_in_range (index length : Z) :
  0 < length -> - length <= index ->
  0 <= normalizeIndex index length < length /\
  normalizeIndex index length = index mod length.
Proof.
  intros Hl Hi. rewrite (normalizeIndex_mod index length Hl Hi).
  split; [apply Z.mod_pos_bound; exact Hl | reflexivity].
Qed.

Lemma normalizeIndex_in_range_witness :
  0 <= normalizeIndex (-4) 10 < 10 /\ normalizeIndex (-4) 10 = (-4) mod 10.
Proof. apply (normalizeIndex_in_range (-4) 10); lia. Defined.

(** Below [-length] the result is no position of the list: it is zero or
    negative, above [-length], and negative unless [length] divides the
    index. *)
Theorem normalizeIndex_below_range (index length : Z) :
  0 < length -> index < - length ->
  normalizeIndex index length = - ((- (index + length)) mod length) /\
  - length < normalizeIndex index length <= 0 /\
  (index mod length <> 0 -> normalizeIndex index length < 0).
Proof.
  intros Hl Hi. unfold normalizeIndex.
  destruct (length =? 0) eqn:E; [apply Z.eqb_eq in E; lia |].
  assert (Er : Z.rem (index + length) length = - ((- (index + length)) mod length)).
  { rewrite <- (Z.opp_involutive (index + length)) at 1.
    rewrite Z.rem_opp_l by lia. rewrite Z.rem_mod_nonneg by lia. reflexivity. }
  rewrite Er. pose proof (Z.mod_pos_bound (- (index + length)) length Hl) as Hb.
  split; [reflexivity |]. split; [lia |].
  intros Hnz.
  assert ((- (index + length)) mod length <> 0); [| lia].
  intros H0. apply Hnz.
  apply Z.mod_divide in H0; [| lia]. destruct H0 as [q Hq].
  apply Z.mod_divide; [lia |]. exists (- q - 1). lia.
Qed.

Lemma normalizeIndex_below_range_witness :
  normalizeIndex (-4) 3 = - ((- (-4 + 3)) mod 3) /\
  - 3 < normalizeIndex (-4) 3 <= 0 /\
  ((-4) mod 3 <> 0 -> normalizeIndex (-4) 3 < 0).
Proof. apply (normalizeIndex_below_range (-4) 3); lia. Defined.

Lemma slice_inside {A : Type} (l : list A) (s e : Z) :
  0 <= s -> s <= e -> e <= Z.of_nat (List.length l) ->
  slice l s e = firstn (Z.to_nat (e - s)) (skipn (Z.to_nat s) l).
Proof.
  intros Hs Hse He. unfold slice, relativeIndex.
  destruct (s <? 0) eqn:E1; [apply Z.ltb_lt in E1; lia |].
  destruct (e <? 0) eqn:E2; [apply Z.ltb_lt in E2; lia |].
  rewrite !Z.min_l by lia. reflexivity.
Qed.

Lemma slice_prefix {A : Type} (l : list A) (e : Z) :
  0 <= e -> slice l 0 e = firstn (Z.to_nat e) l.
Proof.
  intros He. unfold slice, relativeIndex.
  destruct (e <? 0) eqn:E2; [apply Z.ltb_lt in E2; lia |].
  change (0 <? 0) with false. cbv iota.
  rewrite (Z.min_l 0) by lia. cbn [Z.to_nat skipn].
  rewrite Z.sub_0_r.
  destruct (Z.le_ge_cases e (Z.of_nat (List.length l))) as [H | H].
  - rewrite Z.min_l by lia. reflexivity.
  - rewrite Z.min_r by lia. rewrite Nat2Z.id.
    rewrite firstn_all. symmetry. apply firstn_all2. lia.
Qed.

Lemma sliceFrom_inside {A : Type} (l : list A) (s : Z) :
  0 <= s <= Z.of_nat (List.length l) ->
  sliceFrom l s = skipn (Z.to_nat s) l.
Proof.
  intros Hs. unfold sliceFrom. rewrite slice_inside by lia.
  apply firstn_all2. rewrite length_skipn. lia.
Qed.

(** Without a carousel API, before the initialisation, when the API throws
    and for no product at all, the window is the first eight products (all of
    them when there are fewer). *)
Theorem fallback_window (products : list Product) (emblaApi : option Snap)
    (isInitialized : bool) :
  emblaApi = None \/ isInitialized = false \/ emblaApi = Some Throws
    \/ products = [] ->
  getVisibleSlides products emblaApi isInitialized = firstn 8 products.
Proof.
  intros H. unfold getVisibleSlides, VIEWPORT_SIZE, BUFFER_SIZE.
  assert (E : slice products 0 (4 + 4) = firstn 8 products)
    by (rewrite slice_prefix by lia; reflexivity).
  destruct emblaApi as [snap |]; [| exact E].
  destruct (negb isInitialized || (Z.of_nat (List.length products) =? 0)) eqn:Eb;
    [exact E |].
  apply orb_false_elim in Eb. destruct Eb as [Ei En].
  destruct H as [H | [H | [H | H]]].
  - discriminate H.
  - rewrite H in Ei. discriminate Ei.
  - injection H as ->. exact E.
  - subst products. discriminate En.
Qed.

Lemma fallback_window_witness :
  getVisibleSlides [ {| title := "a"; imgUrl := "u" |} ] (Some (Selected 0)) false
  = firstn 8 [ {| title := "a"; imgUrl := "u" |} ].
Proof. apply fallback_window. right. left. reflexivity. Defined.

(** The window of an initialised carousel of at least four products, by its
    two normalised ends. *)
Lemma window_shape (products : list Product) (sel : Z) :
  let n := Z.of_nat (List.length products) in
  4 <= n -> 0 <= sel < n ->
  let s := (sel - 4) mod n in
  let e := (sel + 8) mod n in
  0 <= s < n /\ 0 <= e < n /\
  getVisibleSlides products (Some (Selected sel)) true
  = if e <=? s
    then skipn (Z.to_nat s) products ++ firstn (Z.to_nat e) products
    else firstn (Z.to_nat (e - s)) (skipn (Z.to_nat s) products).
Proof.
  intros n Hn Hsel s e.
  assert (Hs : 0 <= s < n) by (apply Z.mod_pos_bound; lia).
  assert (He : 0 <= e < n) by (apply Z.mod_pos_bound; lia).
  split; [exact Hs |]. split; [exact He |].
  unfold getVisibleSlides, VIEWPORT_SIZE, BUFFER_SIZE. fold n.
  destruct (n =? 0) eqn:E0; [apply Z.eqb_eq in E0; lia |]. cbn [negb orb].
  rewrite (normalizeIndex_mod (sel - 4) n) by lia.
  replace (sel + 4 + 4) with (sel + 8) by lia.
  rewrite (normalizeIndex_mod (sel + 8) n) by lia.
  fold s e. destruct (e <=? s) eqn:Ees.
  - apply Z.leb_le in Ees.
    rewrite sliceFrom_inside by (fold n; lia).
    rewrite slice_prefix by lia. reflexivity.
  - apply Z.leb_gt in Ees. rewrite slice_inside by (fold n; lia). reflexivity.
Qed.

(** The distance between the two ends is 12 counted round the list. *)
Lemma window_ends (n sel : Z) :
  4 <= n -> 0 <= sel < n ->
  let s := (sel - 4) mod n in
  let e := (sel + 8) mod n in
  exists q : Z, e - s = 12 - n * q.
Proof.
  intros Hn Hsel s e.
  pose proof (Z.div_mod (sel - 4) n ltac:(lia)) as H1.
  pose proof (Z.div_mod (sel + 8) n ltac:(lia)) as H2.
  fold s in H1. fold e in H2.
  exists ((sel + 8) / n - (sel - 4) / n). lia.
Qed.

Lemma window_length (products : list Product) (sel : Z) :
  let n := Z.of_nat (List.length products) in
  4 <= n -> 0 <= sel < n ->
  Z.of_nat (List.length (getVisibleSlides products (Some (Selected sel)) true))
  = if 12 mod n =? 0 then n else 12 mod n.
Proof.
  intros n Hn Hsel.
  destruct (window_shape products sel Hn Hsel) as (Hs & He & E).
  destruct (window_ends n sel Hn Hsel) as [q Hq].
  fold n in Hs, He, E. rewrite E. clear E.
  set (s := (sel - 4) mod n) in *. set (e := (sel + 8) mod n) in *.
  destruct (e <=? s) eqn:Ees.
  - apply Z.leb_le in Ees.
    rewrite length_app, length_skipn, length_firstn.
    assert (EL : Z.of_nat (List.length products - Z.to_nat s
                           + Nat.min (Z.to_nat e) (List.length products))
                 = n + e - s) by (unfold n; lia).
    rewrite EL.
    destruct (Z.eq_dec e s) as [Eq | Ne].
    + assert (H12 : 12 mod n = 0).
      { symmetry. apply (Z.mod_unique_pos 12 n q 0); lia. }
      rewrite H12. cbn [Z.eqb]. lia.
    + assert (H12 : 12 mod n = n + e - s).
      { symmetry. apply (Z.mod_unique_pos 12 n (q - 1) (n + e - s)); lia. }
      rewrite H12. destruct (n + e - s =? 0) eqn:Ez; [apply Z.eqb_eq in Ez; lia |].
      reflexivity.
  - apply Z.leb_gt in Ees.
    rewrite length_firstn, length_skipn.
    assert (EL : Z.of_nat (Nat.min (Z.to_nat (e - s))
                             (List.length products - Z.to_nat s)) = e - s)
      by (unfold n in *; lia).
    rewrite EL.
    assert (H12 : 12 mod n = e - s).
    { symmetry. apply (Z.mod_unique_pos 12 n q (e - s)); lia. }
    rewrite H12. destruct (e - s =? 0) eqn:Ez; [apply Z.eqb_eq in Ez; lia |].
    reflexivity.
Qed.

(** On an initialised carousel of [n >= 4] products the window holds
    [12 mod n] slides, or all [n] when [n] divides 12: twelve slides from
    thirteen products on, but for instance four of eight products and two of
    ten. *)
Theorem window_size (products : list Product) (sel : Z) :
  let n := Z.of_nat (List.length products) in
  4 <= n -> 0 <= sel < n ->
  Z.of_nat (List.length (getVisibleSlides products (Some (Selected sel)) true))
  = (if 12 mod n =? 0 then n else 12 mod n) /\
  (12 < n ->
   List.length (getVisibleSlides products (Some (Selected sel)) true) = 12%nat).
Proof.
  intros n Hn Hsel. pose proof (window_length products sel Hn Hsel) as H.
  fold n in H. split; [exact H |].
  intros Hbig. rewrite Z.mod_small in H by lia. cbn [Z.eqb] in H. lia.
Qed.

End CarouselWindow.

Section CarouselSlides.

Import Carousel.

Local Open Scope Z_scope.

(** Eight products and the carousel at its first slide: four slides. *)
Lemma window_size_witness :
  Z.of_nat (List.length (getVisibleSlides
                           (repeat {| title := "p"; imgUrl := "u" |} 8)
                           (Some (Selected 0)) true))
  = (if 12 mod 8 =? 0 then 8 else 12 mod 8).
Proof.
  destruct (window_size (repeat {| title := "p"; imgUrl := "u" |} 8) 0) as [H _].
  - cbn. lia.
  - cbn. lia.
  - exact H.
Defined.

Lemma slideAt_position (products : list Product) (i q r : Z) :
  let n := Z.of_nat (List.length products) in
  0 <= r < n -> i = n * q + r ->
  slideAt products i = nth_error products (Z.to_nat r).
Proof.
  intros n Hr Hi. unfold slideAt. fold n.
  rewrite <- (Z.mod_unique_pos i n q r Hr Hi). reflexivity.
Qed.

Lemma window_nth (products : list Product) (sel : Z) (k : nat) :
  let n := Z.of_nat (List.length products) in
  4 <= n -> 0 <= sel < n ->
  (k < List.length (getVisibleSlides products (Some (Selected sel)) true))%nat ->
  nth_error (getVisibleSlides products (Some (Selected sel)) true) k
  = slideAt products (sel - 4 + Z.of_nat k).
Proof.
  intros n Hn Hsel.
  destruct (window_shape products sel Hn Hsel) as (Hs & He & E).
  fold n in Hs, He, E. rewrite E. clear E.
  pose proof (Z.div_mod (sel - 4) n ltac:(lia)) as H1.
  set (s := (sel - 4) mod n) in *. set (e := (sel + 8) mod n) in *.
  set (q := (sel - 4) / n) in *.
  assert (En : n = Z.of_nat (List.length products)) by reflexivity.
  clearbody s e q n.
  destruct (e <=? s) eqn:Ees.
  - apply Z.leb_le in Ees. rewrite length_app, length_skipn, length_firstn.
    intros Hk.
    destruct (Nat.lt_ge_cases k (List.length products - Z.to_nat s)) as [Hlt | Hge].
    + rewrite nth_error_app1 by (rewrite length_skipn; exact Hlt).
      rewrite nth_error_skipn.
      rewrite (slideAt_position products _ q (s + Z.of_nat k));
        [f_equal; lia | cbv zeta; rewrite <- ?En; lia | cbv zeta; rewrite <- ?En; lia].
    + rewrite nth_error_app2 by (rewrite length_skipn; exact Hge).
      rewrite length_skipn, nth_error_firstn.
      assert (Hb : (k - (List.length products - Z.to_nat s) <? Z.to_nat e)%nat = true)
        by (apply Nat.ltb_lt; lia).
      rewrite Hb.
      rewrite (slideAt_position products _ (q + 1) (s + Z.of_nat k - n));
        [f_equal; lia | cbv zeta; rewrite <- ?En; lia | cbv zeta; rewrite <- ?En; lia].
  - apply Z.leb_gt in Ees. rewrite length_firstn, length_skipn. intros Hk.
    rewrite nth_error_firstn.
    assert (Hb : (k <? Z.to_nat (e - s))%nat = true) by (apply Nat.ltb_lt; lia).
    rewrite Hb, nth_error_skipn.
    rewrite (slideAt_position products _ q (s + Z.of_nat k));
      [f_equal; lia | cbv zeta; rewrite <- ?En; lia | cbv zeta; rewrite <- ?En; lia].
Qed.

(** The slides of the window of an initialised carousel of at least four
    products are consecutive round the list and begin four places before the
    selected one: the slide at place [k] of the window is the product at
    position [selected - 4 + k], counted round the list. *)
Theorem window_slides (products : list Product) (sel : Z) (k : nat) :
  let n := Z.of_nat (List.length products) in
  4 <= n -> 0 <= sel < n ->
  (k < List.length (getVisibleSlides products (Some (Selected sel)) true))%nat ->
  nth_error (getVisibleSlides products (Some (Selected sel)) true) k
  = slideAt products (sel - 4 + Z.of_nat k).
Proof. exact (window_nth products sel k). Qed.

Lemma window_slides_witness :
  nth_error (getVisibleSlides (repeat {| title := "p"; imgUrl := "u" |} 8)
               (Some (Selected 0)) true) 1
  = slideAt (repeat {| title := "p"; imgUrl := "u" |} 8) (0 - 4 + Z.of_nat 1).
Proof.
  apply (window_slides (repeat {| title := "p"; imgUrl := "u" |} 8) 0 1).
  - cbn. lia.
  - cbn. lia.
  - vm_compute. lia.
Defined.

End CarouselSlides.

(* ================================================================== *)
(** ** The peek of a percentage *)
(* ================================================================== *)

Section PercentagePeek.

Local Open Scope js_scope.



End PercentagePeek.

(* ================================================================== *)
(** ** The animation moves one way *)
(* ================================================================== *)

Section MonotoneAnimation.

Local Open Scope js_scope.

Lemma exp_le (x y : R) : (x <= y)%R -> (Rtrigo_def.exp x <= Rtrigo_def.exp y)%R.
Proof.
  intros [H | H].
  - left. apply exp_increasing. exact H.
  - subst y. lra.
Qed.

(** For a positive spring the eased progress grows with the progress. *)
Lemma easeR_monotone (k d m p1 p2 : R) :
  (0 < k)%R -> (0 < d)%R -> (0 < m)%R -> (0 <= p1 <= p2)%R ->
  (easeR k d m p1 <= easeR k d m p2)%R.
Proof.
  intros Hk Hd Hm [H0 H12]. unfold easeR.
  assert (A : forall q, (0 <= q)%R -> (- k * q / m <= 0)%R).
  { intros q Hq. apply (Rmult_le_reg_r m); [lra |].
    replace (- k * q / m * m)%R with (- (k * q))%R by (field; lra). nra. }
  assert (B : (- k * p2 / m <= - k * p1 / m)%R).
  { apply (Rmult_le_reg_r m); [lra |].
    replace (- k * p2 / m * m)%R with (- (k * p2))%R by (field; lra).
    replace (- k * p1 / m * m)%R with (- (k * p1))%R by (field; lra). nra. }
  assert (C : (- d * p2 <= - d * p1)%R) by nra.
  pose proof (exp_le _ _ B) as E1. pose proof (exp_le _ _ C) as E2.
  pose proof (exp_le_1 _ (A p1 H0)) as F1.
  pose proof (exp_le_1 (- d * p1)%R ltac:(nra)) as F2.
  set (a1 := Rtrigo_def.exp (- k * p1 / m)) in *.
  set (a2 := Rtrigo_def.exp (- k * p2 / m)) in *.
  set (b1 := Rtrigo_def.exp (- d * p1)) in *.
  set (b2 := Rtrigo_def.exp (- d * p2)) in *.
  clearbody a1 a2 b1 b2. nra.
Qed.

Lemma progressR_monotone (now t1 t2 : R) :
  (t1 <= t2)%R -> (progressR now t1 <= progressR now t2)%R.
Proof.
  intros H. unfold progressR, Rmin.
  destruct (Rle_dec ((t1 - now) / 300) 1); destruct (Rle_dec ((t2 - now) / 300) 1); lra.
Qed.

(** Two frames in a row of one animation, the second not before the first. *)
Lemma two_frames (p : SliderProps) (st : Slider) (s tg k d m now : R)
    (ts : list R) (t1 t2 : R) :
  single_animation st ->
  sliderOffset st = Fin s ->
  springConfig (config p) = {| stiffness := Fin k; damping := Fin d; mass := Fin m |} ->
  (0 < k)%R -> (0 < d)%R -> (0 < m)%R ->
  (now <= t1)%R -> (t1 <= t2)%R ->
  let started := animateToOffset p (Fin tg) false now st in
  exists q1 q2 : R,
    sliderOffset (runFrames (ts ++ [t1]) started) = Fin (s + (tg - s) * q1) /\
    sliderOffset (runFrames (ts ++ [t1; t2]) started) = Fin (s + (tg - s) * q2) /\
    (0 <= q1 <= q2)%R /\ (q2 < 1)%R.
Proof.
  intros H Hs Hsp Hk Hd Hm Ht1 Ht2 started.
  assert (Hm0 : m <> 0%R) by lra.
  pose proof (animationTo_finite p st s tg k d m now Hs Hsp Hm0) as Hfin.
  pose proof (animateToOffset_tracks p false DragEnded st s tg k d m now H) as Htr.
  cbn [notify] in Htr. fold started in Htr.
  apply (runFrames_tracks _ _ _ _ _ _ ts _ Hfin) in Htr.
  rewrite !runFrames_app. set (mid := runFrames ts started) in *.
  unfold runFrames at 1 2. cbn [fold_left].
  set (a := animationTo p (Fin tg) now st) in *.
  assert (Ea : startTime a = now) by reflexivity.
  pose proof (progressR_nonneg now t1 Ht1) as P0.
  pose proof (progressR_le_1 now t1) as P1.
  pose proof (progressR_le_1 now t2) as P2.
  pose proof (progressR_monotone now t1 t2 Ht2) as P12.
  assert (B1 : (0 <= easeR k d m 1 < 1)%R) by (apply easeR_bounds; lra).
  destruct Htr as [Han | [Hf Ho]].
  - destruct (runFrame_animating a s (tg - s) k d m t1 mid Hfin Han)
      as [(Hlt & Ho1 & Han1) | (Heq & Ho1 & Hf1)]; rewrite Ea in *.
    + destruct (runFrame_animating a s (tg - s) k d m t2 _ Hfin Han1)
        as [(Hlt2 & Ho2 & _) | (Heq2 & Ho2 & _)]; rewrite Ea in *.
      * exists (easeR k d m (progressR now t1)), (easeR k d m (progressR now t2)).
        split; [exact Ho1 |]. split; [exact Ho2 |].
        pose proof (easeR_bounds k d m (progressR now t1) Hk Hd Hm ltac:(lra)).
        pose proof (easeR_bounds k d m (progressR now t2) Hk Hd Hm ltac:(lra)).
        pose proof (easeR_monotone k d m _ _ Hk Hd Hm (conj P0 P12)). lra.
      * exists (easeR k d m (progressR now t1)), (easeR k d m 1).
        split; [exact Ho1 |]. split; [exact Ho2 |].
        pose proof (easeR_bounds k d m (progressR now t1) Hk Hd Hm ltac:(lra)).
        pose proof (easeR_monotone k d m (progressR now t1) 1 Hk Hd Hm ltac:(lra)).
        lra.
    + exists (easeR k d m 1), (easeR k d m 1).
      split; [exact Ho1 |]. rewrite (runFrame_idle t2 _ Hf1).
      split; [exact Ho1 | lra].
  - exists (easeR k d m 1), (easeR k d m 1).
    rewrite (runFrame_idle t1 _ Hf), (runFrame_idle t2 _ Hf).
    split; [exact Ho |]. split; [exact Ho | lra].
Qed.

(** With a positive spring, a frame never moves the slider back: of two
    frames in a row of one animation, the second not earlier than the first
    and neither before the start, the second leaves the offset where the
    first left it or nearer to the target, and short of the target. *)
Theorem animation_never_moves_back (p : SliderProps) (st : Slider)
    (s tg k d m now : R) (ts : list R) (t1 t2 : R) :
  single_animation st ->
  sliderOffset st = Fin s ->
  springConfig (config p) = {| stiffness := Fin k; damping := Fin d; mass := Fin m |} ->
  (0 < k)%R -> (0 < d)%R -> (0 < m)%R ->
  (now <= t1)%R -> (t1 <= t2)%R ->
  let started := animateToOffset p (Fin tg) false now st in
  exists o1 o2 : R,
    sliderOffset (runFrames (ts ++ [t1]) started) = Fin o1 /\
    sliderOffset (runFrames (ts ++ [t1; t2]) started) = Fin o2 /\
    ((s <= tg)%R -> (s <= o1 <= o2)%R /\ (o2 <= tg)%R) /\
    ((tg <= s)%R -> (tg <= o2 <= o1)%R /\ (o1 <= s)%R).
Proof.
  intros H Hs Hsp Hk Hd Hm Ht1 Ht2 started.
  destruct (two_frames p st s tg k d m now ts t1 t2 H Hs Hsp Hk Hd Hm Ht1 Ht2)
    as (q1 & q2 & E1 & E2 & Hq & Hq2).
  fold started in E1, E2.
  exists (s + (tg - s) * q1)%R, (s + (tg - s) * q2)%R.
  split; [exact E1 |]. split; [exact E2 |].
  split; intros Hdir; split; nra.
Qed.

Lemma animation_never_moves_back_witness :
  exists o1 o2 : R,
    sliderOffset (runFrames ([16] ++ [100])%R
                    (animateToOffset exampleProps (Fin (-108)) false 0
                       (exampleState (num 0) (num 0)))) = Fin o1 /\
    sliderOffset (runFrames ([16] ++ [100; 200])%R
                    (animateToOffset exampleProps (Fin (-108)) false 0
                       (exampleState (num 0) (num 0)))) = Fin o2 /\
    ((-108 <= 0)%R -> (-108 <= o2 <= o1)%R /\ (o1 <= 0)%R).
Proof.
  destruct (animation_never_moves_back exampleProps (exampleState (num 0) (num 0))
              0 (-108) 150 25 1 0 [16]%R 100 200)
    as (o1 & o2 & E1 & E2 & _ & Hd); try reflexivity; try lra.
  - left. reflexivity.
  - exists o1, o2. split; [exact E1 |]. split; [exact E2 | exact Hd].
Defined.

End MonotoneAnimation.

(* ================================================================== *)
(** ** One animation at a time *)
(* ================================================================== *)

Section OneAnimation.

Variable p : SliderProps.

Local Open Scope js_scope.

Lemma scrollToItem_goTo (itemId : ItemId) (now : R) (st : Slider) :
  scrollToItem p itemId now st = st \/
  exists k : nat, scrollToItem p itemId now st = goTo p (JS.of_nat k) now st.
Proof.
  unfold scrollToItem. destruct (Op.findIndex _ _) as [k |].
  - right. exists k. reflexivity.
  - left. reflexivity.
Qed.

Lemma perform_single (a : Action) (st : Slider) :
  single_animation st -> single_animation (perform p a st).
Proof.
  intros H. destruct a as [e | itemId now | cw v pw |]; cbn [perform].
  - apply dispatch_single, H.
  - destruct (scrollToItem_goTo itemId now st) as [E | [k E]]; rewrite E.
    + exact H.
    + apply goTo_single, H.
  - exact H.
  - left. apply cancel_single, H.
Qed.

(** From the mount on, whatever the handle, the gestures, the frames and the
    measurements do, at most one frame callback is pending, the one whose
    handle the ref holds. *)
Lemma performAll_single (acts : list Action) (st : Slider) :
  single_animation st -> single_animation (performAll p acts st).
Proof.
  unfold performAll. revert st.
  induction acts as [| a acts IH]; intros st H; cbn [fold_left].
  - exact H.
  - apply IH, perform_single, H.
Qed.

Lemma notify_animating (b : bool) (c : Callback) (a : Animation) (st : Slider) :
  animating a st -> animating a (notify b c st).
Proof. unfold notify. destruct b; intros H; exact H. Qed.

(** The end of a drag starts an animation towards the offset of some index. *)
Lemma handleDragEnd_animating (now : R) (st : Slider) :
  single_animation st ->
  isDragging st = true -> enableDrag (config p) = true ->
  exists index : number,
    animating (animationTo p (offsetOfIndex p st index) now st)
      (handleDragEnd p now st).
Proof.
  intros H Hd He. unfold handleDragEnd. rewrite Hd, He. cbn [negb orb].
  assert (H1 : single_animation (setIsDragging false st)) by exact H.
  destruct (JS.abs _ >? _); [destruct (_ >? _) |].
  - eexists. apply notify_animating. rewrite handlePrevious_goTo.
    exact (goTo_animating p _ now _ H1).
  - eexists. apply notify_animating. rewrite handleNext_goTo.
    exact (goTo_animating p _ now _ H1).
  - exists (currentIndex st). apply notify_animating.
    exact (animateToOffset_supersedes p _ now _ H1).
Qed.

(** C2: from the mount on, through every sequence of operations of the
    handle, drag gestures, frames and measurements, at most one animation
    frame is pending, and every start of an animation cancels the one in
    flight before the new one takes effect: right after the call the new
    animation is the only pending callback, and through all later frames no
    callback of an earlier animation runs, the offset being the one at the
    call or one a frame wrote for the new animation.  [animateToOffset] is
    private to the component and its five call sites, in [handleNext],
    [handlePrevious], [handleDragEnd], [scrollToItem] and [scrollToIndex],
    leave [immediate] at its default [false]: these are all the starts there
    are.  A drag start cancels the pending callback as well. *)
Theorem animation_start_cancels_previous (defaultIndex small : number)
    (acts : list Action) :
  let st := performAll p acts (mount defaultIndex small) in
  single_animation st /\
  (forall (target : number) (now : R),
     onlyAnimation (animationTo p target now st)
       (animateToOffset p target false now st)) /\
  (forall now : R,
     onlyAnimation
       (animationTo p
          (offsetOfIndex p st
             (JS.min (itemsLength p - visibleItems st) (currentIndex st + num 1)))
          now st)
       (next p now st)) /\
  (forall now : R,
     onlyAnimation
       (animationTo p
          (offsetOfIndex p st (JS.max (num 0) (currentIndex st - num 1))) now st)
       (previous p now st)) /\
  (forall (index : number) (now : R),
     onlyAnimation (animationTo p (offsetOfIndex p st index) now st)
       (scrollToIndex p index now st)) /\
  (forall (itemId : ItemId) (now : R),
     scrollToItem p itemId now st = st \/
     exists k : nat,
       onlyAnimation (animationTo p (offsetOfIndex p st (JS.of_nat k)) now st)
         (scrollToItem p itemId now st)) /\
  (forall now : R,
     isDragging st = true -> enableDrag (config p) = true ->
     exists index : number,
       onlyAnimation (animationTo p (offsetOfIndex p st index) now st)
         (handleDragEnd p now st)) /\
  (forall clientX : number,
     enableDrag (config p) = true -> frames (handleDragStart p clientX st) = []).
Proof.
  intros st.
  assert (H : single_animation st)
    by (apply performAll_single, mount_single).
  split; [exact H |]. split; [| split; [| split; [| split; [| split; [| split]]]]].
  - intros target now. apply animating_only, animateToOffset_supersedes, H.
  - intros now. apply animating_only. unfold next. rewrite handleNext_goTo.
    apply goTo_animating, H.
  - intros now. apply animating_only. unfold previous. rewrite handlePrevious_goTo.
    apply goTo_animating, H.
  - intros index now. apply animating_only. rewrite scrollToIndex_goTo.
    apply goTo_animating, H.
  - intros itemId now.
    destruct (scrollToItem_goTo itemId now st) as [E | [k E]].
    + left. exact E.
    + right. exists k. apply animating_only. rewrite E. apply goTo_animating, H.
  - intros now Hd He.
    destruct (handleDragEnd_animating now st H Hd He) as [index Ha].
    exists index. apply animating_only, Ha.
  - intros clientX He. apply handleDragStart_cancels; assumption.
Qed.

End OneAnimation.

(** C2 on the example slider: mounted, measured at 424 pixels, [next()], a
    frame half way, then [scrollToIndex(0)].  The animation towards the
    offset 0 is the only pending callback, and the frame that follows writes
    an offset of that animation. *)
Lemma animation_start_cancels_previous_witness :
  let st := performAll exampleProps
              [OnMeasure (num 424) (num 4) (num 0); OnEvent (EvNext 0);
               OnEvent (EvFrame 150)]
              (mount (num 0) (num 4)) in
  let a := animationTo exampleProps (offsetOfIndex exampleProps st (num 0)) 200 st in
  animating a (scrollToIndex exampleProps (num 0) 200 st) /\
  sliderOffset (runFrames [250]%R (scrollToIndex exampleProps (num 0) 200 st))
  = frameOffset a 250.
Proof.
  cbv zeta.
  destruct (animation_start_cancels_previous exampleProps (num 0) (num 4)
              [OnMeasure (num 424) (num 4) (num 0); OnEvent (EvNext 0);
               OnEvent (EvFrame 150)])
    as (_ & _ & _ & _ & Hs & _).
  destruct (Hs (num 0) 200%R) as [Ha Hr].
  destruct (Hr [250]%R) as [_ [Ho | (t & [<- | []] & Ho)]].
  - split; [exact Ha |].
    destruct (runFrame_closure _ 250
                (scrollToIndex exampleProps (num 0) 200
                   (performAll exampleProps
                      [OnMeasure (num 424) (num 4) (num 0); OnEvent (EvNext 0);
                       OnEvent (EvFrame 150)]
                      (mount (num 0) (num 4)))) Ha) as [Ho' _].
    exact Ho'.
  - split; [exact Ha | exact Ho].
Defined.
